(** * ConvertAddress (rpc/namespaces/utils/api.go) and its codec collaborators

    Go strings are modelled as [list ascii] (byte strings), Go byte slices
    as [list Z] whose elements lie in [0,256), with the wrap-around of the
    [byte] arithmetic written out. *)

From Stdlib Require Import ZArith Ascii String List Bool Lia Btauto.
Import ListNotations.
Open Scope Z_scope.

Abbreviation gostring := (list ascii).

(** Byte value of a character, and the character of a byte value. *)
Definition ord (c : ascii) : Z := Z.of_N (N_of_ascii c).
Definition chr (z : Z) : ascii := ascii_of_N (Z.to_N z).

Definition s (lit : string) : gostring := list_ascii_of_string lit.

(** Go's [error]: every error value the modelled code can produce. *)
Inductive error :=
| Errorf (msg : gostring)                     (* fmt.Errorf / errors.New *)
| InvalidByteError (c : ascii)                (* encoding/hex *)
| ErrLength                                   (* encoding/hex *)
| ErrInvalidLength (n : nat)                  (* bech32 *)
| ErrInvalidCharacter (c : ascii)             (* bech32 *)
| ErrMixedCase                                (* bech32 *)
| ErrInvalidSeparatorIndex (i : Z)            (* bech32 *)
| ErrNonCharsetChar (c : ascii)               (* bech32 *)
| ErrInvalidChecksum                          (* bech32 *)
| ErrInvalidDataByte (b : Z)                  (* bech32 *)
| ErrInvalidIncompleteGroup                   (* bech32 *)
| ErrInvalidBitGroups                         (* bech32 *)
| ErrEmptyAddressString                       (* sdk.AccAddressFromBech32 *)
| ErrBech32EmptyAddress                       (* sdk.GetFromBech32 *)
| ErrInvalidBech32Prefix (expected got : gostring)  (* sdk.GetFromBech32 *)
| ErrUnknownAddressEmpty                      (* sdk.VerifyAddressFormat *)
| ErrUnknownAddressTooLong (n : nat).         (* sdk.VerifyAddressFormat *)

(* ------------------------------------------------------------------ *)
(** ** go-ethereum common: hex addresses *)

Definition AddressLength : nat := 20.

(** [has0xPrefix]: [len(str) >= 2 && str[0] == '0' && (str[1] == 'x' || str[1] == 'X')] *)
Definition has0xPrefix (str : gostring) : bool :=
  match str with
  | c0 :: c1 :: _ => Ascii.eqb c0 "0" && (Ascii.eqb c1 "x" || Ascii.eqb c1 "X")
  | _ => false
  end.

Definition isHexCharacter (c : ascii) : bool :=
  ((ord "0" <=? ord c) && (ord c <=? ord "9"))
  || ((ord "a" <=? ord c) && (ord c <=? ord "f"))
  || ((ord "A" <=? ord c) && (ord c <=? ord "F")).

(** [isHex]: even length and every character a hex digit. *)
Definition isHex (str : gostring) : bool :=
  Nat.even (length str) && forallb isHexCharacter str.

(** [common.IsHexAddress] *)
Definition IsHexAddress (str : gostring) : bool :=
  let str := if has0xPrefix str then skipn 2 str else str in
  Nat.eqb (length str) (2 * AddressLength) && isHex str.

(** encoding/hex [reverseHexTable]: the value of a hex digit, or None
    (the table's 0xff). *)
Definition fromHexChar (c : ascii) : option Z :=
  if (ord "0" <=? ord c) && (ord c <=? ord "9") then Some (ord c - ord "0")
  else if (ord "a" <=? ord c) && (ord c <=? ord "f") then Some (ord c - ord "a" + 10)
  else if (ord "A" <=? ord c) && (ord c <=? ord "F") then Some (ord c - ord "A" + 10)
  else None.

(** encoding/hex [Decode]: decodes pairs until the first bad character;
    the bytes decoded so far are returned with the error. *)
Fixpoint hexDecode (src : gostring) : list Z * option error :=
  match src with
  | p :: q :: rest =>
      match fromHexChar p, fromHexChar q with
      | Some a, Some b =>
          let '(out, err) := hexDecode rest in (a * 16 + b :: out, err)
      | None, _ => ([], Some (InvalidByteError p))
      | _, None => ([], Some (InvalidByteError q))
      end
  | [p] =>
      match fromHexChar p with
      | None => ([], Some (InvalidByteError p))
      | Some _ => ([], Some ErrLength)
      end
  | [] => ([], None)
  end.

(** [hex.DecodeString] is [hexDecode]; [common.Hex2Bytes] drops its error. *)
Definition Hex2Bytes (str : gostring) : list Z := fst (hexDecode str).

(** [common.FromHex] *)
Definition FromHex (str : gostring) : list Z :=
  let str := if has0xPrefix str then skipn 2 str else str in
  let str := if Nat.odd (length str) then "0"%char :: str else str in
  Hex2Bytes str.

(** [common.BytesToAddress] / [Address.SetBytes]: keep the last 20 bytes,
    left-pad with zeros. The result is the [Address] array, whose [Bytes()]
    is the same 20-byte slice. *)
Definition BytesToAddress (b : list Z) : list Z :=
  let b := if Nat.ltb AddressLength (length b)
           then skipn (length b - AddressLength) b else b in
  repeat 0 (AddressLength - length b) ++ b.

(** [common.HexToAddress] *)
Definition HexToAddress (str : gostring) : list Z := BytesToAddress (FromHex str).

(* ------------------------------------------------------------------ *)
(** ** Legacy Keccak-256 (golang.org/x/crypto/sha3 NewLegacyKeccak256) *)

Module Keccak.

Definition mask64 : Z := Z.ones 64.

Definition rotl64 (v n : Z) : Z :=
  Z.land (Z.lor (Z.shiftl v n) (Z.shiftr v (64 - n))) mask64.

Definition lane (A : list Z) (x y : nat) : Z := nth (x + 5 * y) A 0.

Definition RC : list Z :=
  [0x0000000000000001; 0x0000000000008082; 0x800000000000808A; 0x8000000080008000;
   0x000000000000808B; 0x0000000080000001; 0x8000000080008081; 0x8000000000008009;
   0x000000000000008A; 0x0000000000000088; 0x0000000080008009; 0x000000008000000A;
   0x000000008000808B; 0x800000000000008B; 0x8000000000008089; 0x8000000000008003;
   0x8000000000008002; 0x8000000000000080; 0x000000000000800A; 0x800000008000000A;
   0x8000000080008081; 0x8000000000008080; 0x0000000080000001; 0x8000000080008008].

(** rotation offsets, indexed by [x + 5 * y] *)
Definition rho_offsets : list Z :=
  [ 0;  1; 62; 28; 27;
   36; 44;  6; 55; 20;
    3; 10; 43; 25; 39;
   41; 45; 15; 21;  8;
   18;  2; 61; 56; 14].

Definition idx25 : list nat := seq 0 25.

Definition theta (A : list Z) : list Z :=
  let C x := fold_left Z.lxor (map (lane A x) (seq 0 5)) 0 in
  let D x := Z.lxor (C ((x + 4) mod 5)%nat) (rotl64 (C ((x + 1) mod 5)%nat) 1) in
  map (fun i => Z.lxor (nth i A 0) (D (i mod 5)%nat)) idx25.

(** rho and pi: [B[y, 2x+3y] = rotl(A[x,y], r[x,y])]; position (X,Y) of B
    receives lane x = (X + 3Y) mod 5, y = X of A. *)
Definition rho_pi (A : list Z) : list Z :=
  map (fun i =>
         let X := (i mod 5)%nat in
         let Y := (i / 5)%nat in
         let x := ((X + 3 * Y) mod 5)%nat in
         rotl64 (lane A x X) (nth (x + 5 * X) rho_offsets 0)) idx25.

Definition chi (B : list Z) : list Z :=
  map (fun i =>
         let x := (i mod 5)%nat in
         let y := (i / 5)%nat in
         Z.lxor (lane B x y)
                (Z.land (Z.lxor (lane B ((x + 1) mod 5) y) mask64)
                        (lane B ((x + 2) mod 5) y))) idx25.

Definition iota (rc : Z) (A : list Z) : list Z :=
  match A with
  | a0 :: rest => Z.lxor a0 rc :: rest
  | [] => []
  end.

Definition keccak_f (A : list Z) : list Z :=
  fold_left (fun st rc => iota rc (chi (rho_pi (theta st)))) RC A.

Definition rate : nat := 136.

(** little-endian 64-bit lane from 8 bytes *)
Definition le64 (bs : list Z) : Z :=
  fold_right (fun b acc => b + 256 * acc) 0 bs.

Fixpoint lanes_of_block (n : nat) (bs : list Z) : list Z :=
  match n with
  | O => []
  | S n' => le64 (firstn 8 bs) :: lanes_of_block n' (skipn 8 bs)
  end.

Definition xor_block (A : list Z) (blk : list Z) : list Z :=
  let L := lanes_of_block 17 blk ++ repeat 0 8 in
  map (fun i => Z.lxor (nth i A 0) (nth i L 0)) idx25.

Fixpoint absorb (fuel : nat) (A : list Z) (msg : list Z) : list Z :=
  match fuel with
  | O => A
  | S f =>
      match msg with
      | [] => A
      | _ => absorb f (keccak_f (xor_block A (firstn rate msg))) (skipn rate msg)
      end
  end.

(** legacy Keccak padding: 0x01 ... 0x80 *)
Definition pad (msg : list Z) : list Z :=
  let q := (rate - length msg mod rate)%nat in
  msg ++ (if Nat.eqb q 1 then [0x81]
          else [0x01] ++ repeat 0 (q - 2) ++ [0x80]).

Definition bytes_of_lane (v : Z) : list Z :=
  map (fun j => Z.land (Z.shiftr v (8 * Z.of_nat j)) 255) (seq 0 8).

Definition keccak256 (msg : list Z) : list Z :=
  let padded := pad msg in
  let A := absorb (S (length padded / rate)) (repeat 0 25) padded in
  flat_map bytes_of_lane (firstn 4 A).

End Keccak.

(* ------------------------------------------------------------------ *)
(** ** go-ethereum [Address.String()] = [Address.Hex()]: EIP-55 checksum *)

Definition hextable : gostring := s "0123456789abcdef".

Definition hexdigit (v : Z) : ascii := nth (Z.to_nat v) hextable "0"%char.

(** encoding/hex [Encode] (lower case) *)
Definition hexEncode (b : list Z) : gostring :=
  flat_map (fun v => [hexdigit (v / 16); hexdigit (v mod 16)]) b.

(** [Address.hexBuf]: "0x" followed by the lower-case hex digits *)
Definition hexBuf (a : list Z) : gostring := "0"%char :: "x"%char :: hexEncode a.

(** The loop [for i := 2; i < len(buf); i++] of [checksumHex], over the
    digits [buf[2:]]; [i] is the position in [buf]. *)
Fixpoint checksum_loop (hash : list Z) (i : nat) (digits : gostring) : gostring :=
  match digits with
  | [] => []
  | c :: rest =>
      let hb := nth ((i - 2) / 2) hash 0 in
      let hashByte := if Nat.even i then Z.shiftr hb 4 else Z.land hb 15 in
      let c' := if (ord "9" <? ord c) && (7 <? hashByte) then chr (ord c - 32) else c in
      c' :: checksum_loop hash (S i) rest
  end.

(** [Address.checksumHex] *)
Definition checksumHex (a : list Z) : gostring :=
  let buf := hexBuf a in
  let hash := Keccak.keccak256 (map ord (skipn 2 buf)) in
  firstn 2 buf ++ checksum_loop hash 2 (skipn 2 buf).

(** [Address.String()] *)
Definition AddressString (a : list Z) : gostring := checksumHex a.

(* ------------------------------------------------------------------ *)
(** ** Go [strings] helpers *)

(** [strings.HasPrefix] *)
Fixpoint HasPrefix (str pfx : gostring) : bool :=
  match pfx, str with
  | [], _ => true
  | p :: pfx', c :: str' => Ascii.eqb p c && HasPrefix str' pfx'
  | _ :: _, [] => false
  end.

Definition gostr_eqb (a b : gostring) : bool :=
  if list_eq_dec ascii_dec a b then true else false.

Definition isUpperAscii (c : ascii) : bool := (ord "A" <=? ord c) && (ord c <=? ord "Z").
Definition isLowerAscii (c : ascii) : bool := (ord "a" <=? ord c) && (ord c <=? ord "z").

(** [strings.ToLower] / [strings.ToUpper] on ASCII *)
Definition ToLower (str : gostring) : gostring :=
  map (fun c => if isUpperAscii c then chr (ord c + 32) else c) str.
Definition ToUpper (str : gostring) : gostring :=
  map (fun c => if isLowerAscii c then chr (ord c - 32) else c) str.

(** [strings.LastIndexByte]: -1 when absent *)
Fixpoint LastIndexByte_from (i : Z) (str : gostring) (c : ascii) (acc : Z) : Z :=
  match str with
  | [] => acc
  | d :: rest => LastIndexByte_from (i + 1) rest c (if Ascii.eqb d c then i else acc)
  end.
Definition LastIndexByte (str : gostring) (c : ascii) : Z := LastIndexByte_from 0 str c (-1).

(** [strings.IndexByte]: -1 when absent *)
Fixpoint IndexByte (str : gostring) (c : ascii) : Z :=
  match str with
  | [] => -1
  | d :: rest => if Ascii.eqb d c then 0 else
                   let j := IndexByte rest c in if j <? 0 then -1 else j + 1
  end.

(** [len(strings.TrimSpace(s)) == 0]: [s] decodes, as UTF-8, to runes that
    are all [unicode.IsSpace]: the ASCII white space '\t', '\n', '\v', '\f',
    '\r', ' ', the two-byte U+0085 and U+00A0, and the three-byte U+1680,
    U+2000..U+200A, U+2028, U+2029, U+202F, U+205F and U+3000.  A byte that is
    not part of such an encoding (including invalid UTF-8, decoded as
    U+FFFD) stops the trimming. *)
Definition isSpaceByte (c : ascii) : bool :=
  existsb (fun d => ord c =? d) [9; 10; 11; 12; 13; 32].
Definition isSpace2 (b1 b2 : Z) : bool :=
  (b1 =? 194) && ((b2 =? 133) || (b2 =? 160)).
Definition isSpace3 (b1 b2 b3 : Z) : bool :=
  ((b1 =? 225) && (b2 =? 154) && (b3 =? 128))
  || ((b1 =? 226) && (b2 =? 128)
      && (((128 <=? b3) && (b3 <=? 138)) || (b3 =? 168) || (b3 =? 169) || (b3 =? 175)))
  || ((b1 =? 226) && (b2 =? 129) && (b3 =? 159))
  || ((b1 =? 227) && (b2 =? 128) && (b3 =? 128)).
Fixpoint TrimSpaceEmpty (str : gostring) : bool :=
  match str with
  | [] => true
  | c1 :: rest1 =>
      if isSpaceByte c1 then TrimSpaceEmpty rest1 else
      match rest1 with
      | [] => false
      | c2 :: rest2 =>
          if isSpace2 (ord c1) (ord c2) then TrimSpaceEmpty rest2 else
          match rest2 with
          | [] => false
          | c3 :: rest3 =>
              if isSpace3 (ord c1) (ord c2) (ord c3) then TrimSpaceEmpty rest3 else false
          end
      end
  end.

(* ------------------------------------------------------------------ *)
(** ** The bech32 package (BIP-173 reference, as in btcutil/bech32) *)

Module Bech32.

Definition charset : gostring := s "qpzry9x8gf2tvdw0s3jn54khce6mua7l".

Definition gen : list Z := [0x3b6a57b2; 0x26508e6d; 0x1ea119fa; 0x3d4233dd; 0x2a1462b3].

(** one iteration of the loop of [bech32Polymod] *)
Definition polymod_step (chk v : Z) : Z :=
  let b := Z.shiftr chk 25 in
  let chk := Z.lxor (Z.shiftl (Z.land chk 0x1ffffff) 5) v in
  fold_left (fun chk i => if Z.testbit b (Z.of_nat i) then Z.lxor chk (nth i gen 0) else chk)
            (seq 0 5) chk.

Definition bech32Polymod (values : list Z) : Z := fold_left polymod_step values 1.

Definition bech32HrpExpand (hrp : gostring) : list Z :=
  map (fun c => Z.shiftr (ord c) 5) hrp ++ [0] ++ map (fun c => Z.land (ord c) 31) hrp.

Definition bech32VerifyChecksum (hrp : gostring) (data : list Z) : bool :=
  bech32Polymod (bech32HrpExpand hrp ++ data) =? 1.

Definition bech32Checksum (hrp : gostring) (data : list Z) : list Z :=
  let polymod := Z.lxor (bech32Polymod (bech32HrpExpand hrp ++ data ++ [0; 0; 0; 0; 0; 0])) 1 in
  map (fun i => Z.land (Z.shiftr polymod (5 * (5 - Z.of_nat i))) 31) (seq 0 6).

(** [toChars] *)
Fixpoint toChars (data : list Z) : gostring * option error :=
  match data with
  | [] => ([], None)
  | b :: rest =>
      if Z.of_nat (length charset) <=? b then ([], Some (ErrInvalidDataByte b))
      else let '(r, err) := toChars rest in
           match err with
           | Some e => ([], Some e)
           | None => (nth (Z.to_nat b) charset "q"%char :: r, None)
           end
  end.

(** [toBytes] *)
Fixpoint toBytes (chars : gostring) : list Z * option error :=
  match chars with
  | [] => ([], None)
  | c :: rest =>
      let index := IndexByte charset c in
      if index <? 0 then ([], Some (ErrNonCharsetChar c))
      else let '(r, err) := toBytes rest in
           match err with
           | Some e => ([], Some e)
           | None => (index :: r, None)
           end
  end.

(** [Encode] *)
Definition Encode (hrp : gostring) (data : list Z) : gostring * option error :=
  let checksum := bech32Checksum hrp data in
  let combined := data ++ checksum in
  let '(dataChars, err) := toChars combined in
  match err with
  | Some e => ([], Some e)
  | None => (hrp ++ ["1"%char] ++ dataChars, None)
  end.

(** [Decode(bech, limit)] *)
Definition Decode (bech : gostring) (limit : nat) : gostring * list Z * option error :=
  if Nat.ltb (length bech) 8 || Nat.ltb limit (length bech) then
    ([], [], Some (ErrInvalidLength (length bech)))
  else
  match find (fun c => (ord c <? 33) || (126 <? ord c)) bech with
  | Some c => ([], [], Some (ErrInvalidCharacter c))
  | None =>
    let lower := ToLower bech in
    let upper := ToUpper bech in
    if negb (gostr_eqb bech lower) && negb (gostr_eqb bech upper) then
      ([], [], Some ErrMixedCase)
    else
    let bech := lower in
    let one := LastIndexByte bech "1" in
    if (one <? 1) || (Z.of_nat (length bech) <? one + 7) then
      ([], [], Some (ErrInvalidSeparatorIndex one))
    else
    let hrp := firstn (Z.to_nat one) bech in
    let data := skipn (Z.to_nat one + 1) bech in
    let '(decoded, err) := toBytes data in
    match err with
    | Some e => ([], [], Some e)
    | None =>
        if negb (bech32VerifyChecksum hrp decoded) then ([], [], Some ErrInvalidChecksum)
        else (hrp, firstn (length decoded - 6) decoded, None)
    end
  end.

(** One iteration of the inner [for remFromBits > 0] loop of
    [ConvertBits]. The state is [(b, remFromBits, nextByte, filledBits,
    regrouped)]; [b] and [nextByte] are Go [byte]s, hence the [land 255]. *)
Definition cb_step (toBits : Z) (st : Z * Z * Z * Z * list Z) : Z * Z * Z * Z * list Z :=
  let '(b, remFromBits, nextByte, filledBits, regrouped) := st in
  let remToBits := toBits - filledBits in
  let toExtract := if remToBits <? remFromBits then remToBits else remFromBits in
  let nextByte := Z.land (Z.lor (Z.shiftl nextByte toExtract) (Z.shiftr b (8 - toExtract))) 255 in
  let b := Z.land (Z.shiftl b toExtract) 255 in
  let remFromBits := remFromBits - toExtract in
  let filledBits := filledBits + toExtract in
  if filledBits =? toBits then (b, remFromBits, 0, 0, regrouped ++ [nextByte])
  else (b, remFromBits, nextByte, filledBits, regrouped).

(** the inner loop; it runs at most 8 times since [remFromBits <= 8] and
    each iteration extracts at least one bit *)
Fixpoint cb_inner (fuel : nat) (toBits : Z) (st : Z * Z * Z * Z * list Z)
  : Z * Z * Z * Z * list Z :=
  match fuel with
  | O => st
  | S f =>
      let '(_, remFromBits, _, _, _) := st in
      if 0 <? remFromBits then cb_inner f toBits (cb_step toBits st) else st
  end.

(** one iteration of the outer [for _, b := range data] loop *)
Definition cb_byte (fromBits toBits : Z) (acc : Z * Z * list Z) (b : Z) : Z * Z * list Z :=
  let '(nextByte, filledBits, regrouped) := acc in
  let b := Z.land (Z.shiftl b (8 - fromBits)) 255 in
  let '(_, _, nextByte, filledBits, regrouped) :=
      cb_inner 8 toBits (b, fromBits, nextByte, filledBits, regrouped) in
  (nextByte, filledBits, regrouped).

(** [ConvertBits] *)
Definition ConvertBits (data : list Z) (fromBits toBits : Z) (pad : bool) : list Z * option error :=
  if (fromBits <? 1) || (8 <? fromBits) || (toBits <? 1) || (8 <? toBits) then
    ([], Some ErrInvalidBitGroups)
  else
  let '(nextByte, filledBits, regrouped) := fold_left (cb_byte fromBits toBits) data (0, 0, []) in
  let '(nextByte, filledBits, regrouped) :=
      if pad && (0 <? filledBits) then
        (0, 0, regrouped ++ [Z.land (Z.shiftl nextByte (toBits - filledBits)) 255])
      else (nextByte, filledBits, regrouped) in
  if (0 <? filledBits) && ((4 <? filledBits) || negb (nextByte =? 0)) then
    ([], Some ErrInvalidIncompleteGroup)
  else (regrouped, None).

End Bech32.

(* ------------------------------------------------------------------ *)
(** ** cosmos-sdk: types/bech32 and [AccAddress] *)

(** [bech32.ConvertAndEncode] *)
Definition ConvertAndEncode (hrp : gostring) (data : list Z) : gostring * option error :=
  let '(converted, err) := Bech32.ConvertBits data 8 5 true in
  match err with
  | Some e => ([], Some e)
  | None => Bech32.Encode hrp converted
  end.

(** [bech32.DecodeAndConvert] *)
Definition DecodeAndConvert (bech : gostring) : gostring * list Z * option error :=
  let '(hrp, data, err) := Bech32.Decode bech 1023 in
  match err with
  | Some e => ([], [], Some e)
  | None =>
      let '(converted, err) := Bech32.ConvertBits data 5 8 false in
      match err with
      | Some e => ([], [], Some e)
      | None => (hrp, converted, None)
      end
  end.

(** [sdk.GetFromBech32] *)
Definition GetFromBech32 (bech32str prefix : gostring) : list Z * option error :=
  match bech32str with
  | [] => ([], Some ErrBech32EmptyAddress)
  | _ =>
      let '(hrp, bz, err) := DecodeAndConvert bech32str in
      match err with
      | Some e => ([], Some e)
      | None =>
          if negb (gostr_eqb hrp prefix) then ([], Some (ErrInvalidBech32Prefix prefix hrp))
          else (bz, None)
      end
  end.

(** [sdk.VerifyAddressFormat], with no custom address verifier configured *)
Definition VerifyAddressFormat (bz : list Z) : option error :=
  if Nat.eqb (length bz) 0 then Some ErrUnknownAddressEmpty
  else if Nat.ltb 255 (length bz) then Some (ErrUnknownAddressTooLong (length bz))
  else None.

Section Network.

(** The network's bech32 account prefix: [types.Bech32PrefixAccAddr], which
    is also the prefix the SDK configuration returns from
    [GetBech32AccountAddrPrefix()]. *)
Variable Bech32PrefixAccAddr : gostring.

(** [sdk.AccAddressFromBech32]; on error the address is nil (or the empty
    [AccAddress{}]) *)
Definition AccAddressFromBech32 (address : gostring) : list Z * option error :=
  if TrimSpaceEmpty address then ([], Some ErrEmptyAddressString)
  else
  let '(bz, err) := GetFromBech32 address Bech32PrefixAccAddr in
  match err with
  | Some e => ([], Some e)
  | None =>
      match VerifyAddressFormat bz with
      | Some e => ([], Some e)
      | None => (bz, None)
      end
  end.

(** [AccAddress.String()]: "" for an empty address, otherwise the result
    of [ConvertAndEncode] under the account prefix ([cacheBech32Addr]
    panics if it fails; [ConvertAndEncode_no_error] below shows that it
    never does, so the string component is the result). The address cache
    only memoises this value. *)
Definition AccAddressString (aa : list Z) : gostring :=
  match aa with
  | [] => []
  | _ => fst (ConvertAndEncode Bech32PrefixAccAddr aa)
  end.

(** [API.ConvertAddress] *)
Definition ConvertAddress (address : gostring) : gostring * option error :=
  if IsHexAddress address then
    let addrBytes := HexToAddress address in
    let convertedAddr := addrBytes in
    (AccAddressString convertedAddr, None)
  else if HasPrefix address Bech32PrefixAccAddr then
    let '(addrBytes, _) := AccAddressFromBech32 address in
    let convertedAddr := BytesToAddress addrBytes in
    (AddressString convertedAddr, None)
  else ([], Some (Errorf (s "expected a valid hex or bech32 address"))).

End Network.

(* ------------------------------------------------------------------ *)
(** ** The SDK's account-address cache

    [AccAddress.String()] memoises its result in the process-wide
    [accAddrCache], a hashicorp/golang-lru [simplelru.LRU] keyed by the
    address bytes, when [IsAddrCacheEnabled()] holds. The cache is threaded
    here as explicit state. *)

(** [simplelru.LRU]: its capacity and its entries, most recent first
    (the [evictList] order; the [items] map indexes the same entries) *)
Record LRU := mkLRU { lru_size : Z; lru_items : list (list Z * gostring) }.

(** the process state [ConvertAddress] can touch: the flag read by
    [IsAddrCacheEnabled()] and [accAddrCache] *)
Record AddrState := mkAddrState { addr_cache_enabled : bool; addr_cache : LRU }.

Definition key_eqb (a b : list Z) : bool :=
  if list_eq_dec Z.eq_dec a b then true else false.

(** the [c.items[key]] lookup *)
Fixpoint lru_find (k : list Z) (items : list (list Z * gostring)) : option gostring :=
  match items with
  | [] => None
  | (k', v) :: rest => if key_eqb k' k then Some v else lru_find k rest
  end.

(** the entries without the one for [k] (unlinking it from [evictList]) *)
Definition lru_remove (k : list Z) (items : list (list Z * gostring)) : list (list Z * gostring) :=
  filter (fun e => negb (key_eqb (fst e) k)) items.

(** [LRU.Get]: a hit moves the entry to the front *)
Definition lru_get (c : LRU) (k : list Z) : option gostring * LRU :=
  match lru_find k (lru_items c) with
  | Some v => (Some v, mkLRU (lru_size c) ((k, v) :: lru_remove k (lru_items c)))
  | None => (None, c)
  end.

(** [LRU.Add]: an existing entry is moved to the front with the new value;
    a new one is pushed to the front, and the oldest entry is removed when
    the list grows past [size] *)
Definition lru_add (c : LRU) (k : list Z) (v : gostring) : LRU :=
  match lru_find k (lru_items c) with
  | Some _ => mkLRU (lru_size c) ((k, v) :: lru_remove k (lru_items c))
  | None =>
      let items := (k, v) :: lru_items c in
      if lru_size c <? Z.of_nat (length items)
      then mkLRU (lru_size c) (removelast items)
      else mkLRU (lru_size c) items
  end.

Section AddressCache.

Variable Bech32PrefixAccAddr : gostring.

(** [cacheBech32Addr(prefix, addr, cache, cacheKey)]: encode (the panic on
    an encoding error never happens, by [ConvertAndEncode_no_error]), then
    [cache.Add] when caching is enabled *)
Definition cacheBech32Addr (addr : list Z) (st : AddrState) : gostring * AddrState :=
  let bech32Addr := fst (ConvertAndEncode Bech32PrefixAccAddr addr) in
  if addr_cache_enabled st
  then (bech32Addr, mkAddrState true (lru_add (addr_cache st) addr bech32Addr))
  else (bech32Addr, st).

(** [AccAddress.String()] with its cache: "" for an empty address; a cache
    hit returns the cached string (and refreshes the entry); otherwise
    [cacheBech32Addr] *)
Definition AccAddressString_st (aa : list Z) (st : AddrState) : gostring * AddrState :=
  match aa with
  | [] => ([], st)
  | _ =>
      if addr_cache_enabled st then
        match lru_get (addr_cache st) aa with
        | (Some addr, c) => (addr, mkAddrState (addr_cache_enabled st) c)
        | (None, c) => cacheBech32Addr aa (mkAddrState (addr_cache_enabled st) c)
        end
      else cacheBech32Addr aa st
  end.

(** [API.ConvertAddress] with the state [AccAddress.String()] reads and
    writes ([Address.String()] and [AccAddressFromBech32] use no cache) *)
Definition ConvertAddress_st (address : gostring) (st : AddrState)
  : (gostring * option error) * AddrState :=
  if IsHexAddress address then
    let addrBytes := HexToAddress address in
    let convertedAddr := addrBytes in
    let '(str, st') := AccAddressString_st convertedAddr st in
    ((str, None), st')
  else if HasPrefix address Bech32PrefixAccAddr then
    let '(addrBytes, _) := AccAddressFromBech32 Bech32PrefixAccAddr address in
    let convertedAddr := BytesToAddress addrBytes in
    ((AddressString convertedAddr, None), st)
  else (([], Some (Errorf (s "expected a valid hex or bech32 address"))), st).

(** A cache as [String()] fills it under this prefix: a positive capacity
    ([simplelru.NewLRU] refuses any other), and every entry holds the
    encoding of its key. *)
Definition cache_wf (st : AddrState) : Prop :=
  0 < lru_size (addr_cache st) /\
  Forall (fun e => snd e = AccAddressString Bech32PrefixAccAddr (fst e)) (lru_items (addr_cache st)).

End AddressCache.

(* ------------------------------------------------------------------ *)
(** ** Specification-side helpers used by the proofs *)

(** the [w] low bits of [n], most significant first *)
Fixpoint bitsOf (n : Z) (w : nat) : list bool :=
  match w with
  | O => []
  | S w' => Z.testbit n (Z.of_nat w') :: bitsOf n w'
  end.

(** the number a bit string denotes *)
Fixpoint bitsVal (bs : list bool) : Z :=
  match bs with
  | [] => 0
  | b :: rest => Z.b2z b * 2 ^ Z.of_nat (length rest) + bitsVal rest
  end.

Definition bitstream (w : nat) (vs : list Z) : list bool :=
  flat_map (fun v => bitsOf v w) vs.

Definition Zrange (k : nat) : list Z := map Z.of_nat (seq 0 k).

Definition bits_eqb (a b : list bool) : bool :=
  if list_eq_dec bool_dec a b then true else false.

Definition inrange (lo hi v : Z) : bool := (lo <=? v) && (v <? hi).

(** the effect of one input byte on the [ConvertBits(_, 8, 5, _)] state,
    checked exhaustively over every reachable state *)
Definition check_8_5 : bool :=
  forallb (fun f =>
  forallb (fun n =>
  forallb (fun b =>
    let '(_, _, n', f', out) := Bech32.cb_inner 8 5 (b, 8, n, f, []) in
    inrange 0 5 f' && inrange 0 (2 ^ f') n'
    && forallb (inrange 0 32) out
    && bits_eqb (bitsOf n (Z.to_nat f) ++ bitsOf b 8)
                (bitstream 5 out ++ bitsOf n' (Z.to_nat f')))
    (Zrange 256)) (Zrange (Z.to_nat (2 ^ f)))) (Zrange 5).

(** the same for one 5-bit group fed to [ConvertBits(_, 5, 8, _)] *)
Definition check_5_8 : bool :=
  forallb (fun f =>
  forallb (fun n =>
  forallb (fun g =>
    let '(_, _, n', f', out) := Bech32.cb_inner 8 8 (Z.land (Z.shiftl g 3) 255, 5, n, f, []) in
    inrange 0 8 f' && inrange 0 (2 ^ f') n'
    && forallb (inrange 0 256) out
    && bits_eqb (bitsOf n (Z.to_nat f) ++ bitsOf g 5)
                (bitstream 8 out ++ bitsOf n' (Z.to_nat f')))
    (Zrange 32)) (Zrange (Z.to_nat (2 ^ f)))) (Zrange 8).

(** the padding group of [ConvertBits(_, 8, 5, true)] is a 5-bit value *)
Definition check_pad : bool :=
  forallb (fun f =>
  forallb (fun n => inrange 0 32 (Z.land (Z.shiftl n (5 - f)) 255))
    (Zrange (Z.to_nat (2 ^ f)))) (Zrange 5).

(** every charset character is printable lower-case ASCII other than '1',
    and [IndexByte] inverts [nth] on the charset *)
Definition check_charset : bool :=
  forallb (fun v =>
    let c := nth (Z.to_nat v) Bech32.charset "q"%char in
    inrange 33 127 (ord c) && negb (isUpperAscii c) && negb (Ascii.eqb c "1")
    && (IndexByte Bech32.charset c =? v))
  (Zrange 32).

(** the generator selection loop of [bech32Polymod], over any index list *)
Definition gen_fold (b : Z) (l : list nat) (chk : Z) : Z :=
  fold_left (fun chk i => if Z.testbit b (Z.of_nat i) then Z.lxor chk (nth i Bech32.gen 0) else chk)
            l chk.

(** a well-formed bech32 human-readable prefix: non-empty, printable
    ASCII without upper-case letters, short enough for the 1023-character
    limit *)
Definition valid_prefix (pre : gostring) : bool :=
  Nat.leb 1 (length pre) && Nat.leb (length pre) 900
  && forallb (fun c => inrange 33 127 (ord c) && negb (isUpperAscii c)) pre.

(** the character [toChars] produces for a 5-bit value *)
Definition charOf (v : Z) : ascii := nth (Z.to_nat v) Bech32.charset "q"%char.

Definition is_byte (v : Z) : Prop := inrange 0 256 v = true.
Definition in32 (v : Z) : Prop := inrange 0 32 v = true.

(** the string [Encode] builds from a prefix and 5-bit groups *)
Definition encoded (hrp : gostring) (G : list Z) : gostring :=
  hrp ++ ["1"%char] ++ map charOf (G ++ Bech32.bech32Checksum hrp G).

(** the characters a string accepted by [IsHexAddress] is made of *)
Definition hexaddr_char (c : ascii) : bool :=
  isHexCharacter c || Ascii.eqb c "x" || Ascii.eqb c "X".

(** the prefix has a character that no hex address contains *)
Definition prefix_not_hex (pre : gostring) : bool :=
  existsb (fun c => negb (hexaddr_char c)) pre.

(** The address shape the spec calls hex: "0x" followed by exactly 40 hex
    digits. *)
Definition strict_hex (x : gostring) : bool :=
  match x with
  | c0 :: c1 :: r => Ascii.eqb c0 "0" && Ascii.eqb c1 "x"
                     && Nat.eqb (length r) 40 && forallb isHexCharacter r
  | _ => false
  end.

(** The forms [IsHexAddress] accepts: 40 hex digits, bare or after "0x"
    or "0X". *)
Definition hex_form (x : gostring) : Prop :=
  (length x = 40%nat /\ forallb isHexCharacter x = true)
  \/ exists r, (x = "0"%char :: "x"%char :: r \/ x = "0"%char :: "X"%char :: r)
                /\ length r = 40%nat /\ forallb isHexCharacter r = true.

(** Reference vectors: Keccak-256 of the empty message, and the EIP-55
    test vectors. *)
Example keccak_empty :
  hexEncode (Keccak.keccak256 []) =
  s "c5d2460186f7233c927e7db2dcc703c0e500b653ca82273b7bfad8045d85a470".
Proof. vm_compute. reflexivity. Qed.

Example eip55_vector1 :
  AddressString (HexToAddress (s "0x5aaeb6053f3e94c9b9a09f33669435e7ef1beaed")) =
  s "0x5aAeb6053F3E94C9b9A09f33669435E7Ef1BeAed".
Proof. vm_compute. reflexivity. Qed.

Example eip55_vector2 :
  AddressString (HexToAddress (s "0xfb6916095ca1df60bb79ce92ce3ea74c37c5d359")) =
  s "0xfB6916095ca1df60bB79Ce92cE3Ea74c37c5d359".
Proof. vm_compute. reflexivity. Qed.

Example bip173_vector :
  Bech32.Decode (s "a12uel5l") 90 = (s "a", [], None).
Proof. vm_compute. reflexivity. Qed.

Example convert_hex_example :
  ConvertAddress (s "secret") (s "0x1234567890123456789012345678901234567890") =
  (fst (ConvertAndEncode (s "secret") (HexToAddress (s "1234567890123456789012345678901234567890"))), None).
Proof. vm_compute. reflexivity. Qed.

(* ------------------------------------------------------------------ *)
(** ** Proofs: [ConvertBits] through bit streams *)

Lemma check_8_5_true : check_8_5 = true.
Proof. vm_compute. reflexivity. Qed.

Lemma check_5_8_true : check_5_8 = true.
Proof. vm_compute. reflexivity. Qed.

Lemma check_pad_true : check_pad = true.
Proof. vm_compute. reflexivity. Qed.

Lemma check_charset_true : check_charset = true.
Proof. vm_compute. reflexivity. Qed.

Lemma Zrange_In (k : nat) (v : Z) : 0 <= v < Z.of_nat k -> In v (Zrange k).
Proof.
  intros Hv. unfold Zrange. apply in_map_iff. exists (Z.to_nat v).
  split; [lia|]. apply in_seq. lia.
Qed.

Lemma forallb_Zrange (P : Z -> bool) (k : nat) :
  forallb P (Zrange k) = true -> forall v, 0 <= v < Z.of_nat k -> P v = true.
Proof. rewrite forallb_forall. intros H v Hv. apply H, Zrange_In, Hv. Qed.

Lemma pow2_to_nat (f : Z) : 0 <= f -> Z.of_nat (Z.to_nat (2 ^ f)) = 2 ^ f.
Proof. intros. rewrite Z2Nat.id; [reflexivity|]. apply Z.pow_nonneg; lia. Qed.

Lemma bits_eqb_true (a b : list bool) : bits_eqb a b = true -> a = b.
Proof. unfold bits_eqb. destruct (list_eq_dec bool_dec a b); congruence. Qed.

Lemma inrange_spec (lo hi v : Z) : inrange lo hi v = true <-> lo <= v < hi.
Proof. unfold inrange. rewrite andb_true_iff, Z.leb_le, Z.ltb_lt. tauto. Qed.

Lemma length_bitsOf (n : Z) (w : nat) : length (bitsOf n w) = w.
Proof. induction w; simpl; auto. Qed.

Lemma length_bitstream (w : nat) (vs : list Z) : length (bitstream w vs) = (w * length vs)%nat.
Proof.
  induction vs as [|v vs IH]; simpl; [lia|].
  rewrite length_app, length_bitsOf, IH. lia.
Qed.

Lemma bitstream_app (w : nat) (a b : list Z) :
  bitstream w (a ++ b) = bitstream w a ++ bitstream w b.
Proof. unfold bitstream. apply flat_map_app. Qed.

Lemma app_inj_same_length {A} (a b c d : list A) :
  length a = length b -> a ++ c = b ++ d -> a = b /\ c = d.
Proof.
  revert b. induction a as [|x a IH]; intros [|y b] Hl H; simpl in *; try lia; auto.
  injection H as -> H. destruct (IH b ltac:(lia) H) as [-> ->]. auto.
Qed.

Lemma mod_mul2 (n B : Z) : 0 < B -> n mod (B * 2) = B * ((n / B) mod 2) + n mod B.
Proof.
  intros HB.
  pose proof (Z.div_mod n (B * 2) ltac:(lia)) as E1.
  pose proof (Z.div_mod n B ltac:(lia)) as E2.
  pose proof (Z.div_mod (n / B) 2 ltac:(lia)) as E3.
  rewrite <- Z.div_div in E1 by lia.
  lia.
Qed.

Lemma bitsVal_bitsOf (n : Z) (w : nat) : bitsVal (bitsOf n w) = n mod 2 ^ Z.of_nat w.
Proof.
  induction w as [|w IH]; simpl bitsOf; simpl bitsVal.
  - rewrite Z.pow_0_r, Z.mod_1_r. reflexivity.
  - rewrite length_bitsOf, IH.
    replace (2 ^ Z.of_nat (S w)) with (2 ^ Z.of_nat w * 2) by (rewrite Nat2Z.inj_succ, Z.pow_succ_r; lia).
    rewrite Z.testbit_spec' by lia.
    rewrite (mod_mul2 n (2 ^ Z.of_nat w)) by (apply Z.pow_pos_nonneg; lia). lia.
Qed.

Lemma bitsOf_inj (a b : Z) (w : nat) :
  0 <= a < 2 ^ Z.of_nat w -> 0 <= b < 2 ^ Z.of_nat w -> bitsOf a w = bitsOf b w -> a = b.
Proof.
  intros Ha Hb H. apply (f_equal bitsVal) in H. rewrite !bitsVal_bitsOf in H.
  rewrite !Z.mod_small in H by lia. exact H.
Qed.

Lemma bitstream8_inj (l1 l2 : list Z) :
  Forall (fun v => inrange 0 256 v = true) l1 -> Forall (fun v => inrange 0 256 v = true) l2 ->
  bitstream 8 l1 = bitstream 8 l2 -> l1 = l2.
Proof.
  revert l2. induction l1 as [|a l1 IH]; intros [|b l2] H1 H2 H; auto.
  - apply (f_equal (@length bool)) in H. rewrite !length_bitstream in H. simpl in H. lia.
  - apply (f_equal (@length bool)) in H. rewrite !length_bitstream in H. simpl in H. lia.
  - inversion H1 as [|? ? Ha H1']; inversion H2 as [|? ? Hb H2']; subst.
    change (bitsOf a 8 ++ bitstream 8 l1 = bitsOf b 8 ++ bitstream 8 l2) in H.
    apply app_inj_same_length in H; [|rewrite !length_bitsOf; reflexivity].
    destruct H as [Hab Hrest]. apply inrange_spec in Ha, Hb.
    f_equal; [|apply IH; auto]. apply (bitsOf_inj a b 8); auto.
Qed.

Lemma bitsOf_zero_width (n : Z) : bitsOf n 0 = [].
Proof. reflexivity. Qed.

(** the inner loop only appends to [regrouped] *)
Lemma cb_inner_app (fuel : nat) (t b r n f : Z) (acc : list Z) :
  Bech32.cb_inner fuel t (b, r, n, f, acc) =
  let '(b', r', n', f', out) := Bech32.cb_inner fuel t (b, r, n, f, []) in
  (b', r', n', f', acc ++ out).
Proof.
  revert b r n f acc. induction fuel as [|fuel IH]; intros b r n f acc; simpl.
  - rewrite app_nil_r. reflexivity.
  - destruct (0 <? r); [|rewrite app_nil_r; reflexivity].
    unfold Bech32.cb_step.
    destruct (f + _ =? t).
    + rewrite (IH _ _ _ _ (acc ++ _)), (IH _ _ _ _ [_]).
      destruct (Bech32.cb_inner fuel t _) as [[[[? ?] ?] ?] ?].
      rewrite <- app_assoc. reflexivity.
    + rewrite (IH _ _ _ _ acc). reflexivity.
Qed.

Lemma step_8_5 (f n b : Z) :
  0 <= f < 5 -> 0 <= n < 2 ^ f -> 0 <= b < 256 ->
  let '(_, _, n', f', out) := Bech32.cb_inner 8 5 (b, 8, n, f, []) in
  0 <= f' < 5 /\ 0 <= n' < 2 ^ f' /\ Forall (fun v => inrange 0 32 v = true) out /\
  bitsOf n (Z.to_nat f) ++ bitsOf b 8 = bitstream 5 out ++ bitsOf n' (Z.to_nat f').
Proof.
  intros Hf Hn Hb. pose proof check_8_5_true as H. unfold check_8_5 in H.
  apply (forallb_Zrange _ 5) with (v := f) in H; [|simpl; lia].
  apply (forallb_Zrange _ (Z.to_nat (2 ^ f))) with (v := n) in H; [|rewrite pow2_to_nat; lia].
  apply (forallb_Zrange _ 256) with (v := b) in H; [|simpl; lia].
  destruct (Bech32.cb_inner 8 5 (b, 8, n, f, [])) as [[[[? ?] n'] f'] out].
  rewrite !andb_true_iff in H. destruct H as [[[H1 H2] H3] H4].
  apply inrange_spec in H1, H2. apply bits_eqb_true in H4.
  rewrite forallb_forall in H3. rewrite Forall_forall. auto.
Qed.

Lemma step_5_8 (f n g : Z) :
  0 <= f < 8 -> 0 <= n < 2 ^ f -> 0 <= g < 32 ->
  let '(_, _, n', f', out) := Bech32.cb_inner 8 8 (Z.land (Z.shiftl g 3) 255, 5, n, f, []) in
  0 <= f' < 8 /\ 0 <= n' < 2 ^ f' /\ Forall (fun v => inrange 0 256 v = true) out /\
  bitsOf n (Z.to_nat f) ++ bitsOf g 5 = bitstream 8 out ++ bitsOf n' (Z.to_nat f').
Proof.
  intros Hf Hn Hg. pose proof check_5_8_true as H. unfold check_5_8 in H.
  apply (forallb_Zrange _ 8) with (v := f) in H; [|simpl; lia].
  apply (forallb_Zrange _ (Z.to_nat (2 ^ f))) with (v := n) in H; [|rewrite pow2_to_nat; lia].
  apply (forallb_Zrange _ 32) with (v := g) in H; [|simpl; lia].
  destruct (Bech32.cb_inner 8 8 _) as [[[[? ?] n'] f'] out].
  rewrite !andb_true_iff in H. destruct H as [[[H1 H2] H3] H4].
  apply inrange_spec in H1, H2. apply bits_eqb_true in H4.
  rewrite forallb_forall in H3. rewrite Forall_forall. auto.
Qed.

Lemma land255_range (b : Z) : 0 <= Z.land b 255 < 256.
Proof.
  change 255 with (Z.ones 8). rewrite Z.land_ones by lia.
  apply Z.mod_pos_bound. lia.
Qed.

Lemma cb_byte_8_5 (n f b : Z) (acc : list Z) :
  Bech32.cb_byte 8 5 (n, f, acc) b =
  let '(_, _, n1, f1, out1) := Bech32.cb_inner 8 5 (Z.land b 255, 8, n, f, []) in
  (n1, f1, acc ++ out1).
Proof.
  unfold Bech32.cb_byte. change (8 - 8) with 0. rewrite Z.shiftl_0_r.
  rewrite cb_inner_app. destruct (Bech32.cb_inner 8 5 _) as [[[[? ?] ?] ?] ?].
  reflexivity.
Qed.

Lemma cb_byte_5_8 (n f g : Z) (acc : list Z) :
  Bech32.cb_byte 5 8 (n, f, acc) g =
  let '(_, _, n1, f1, out1) := Bech32.cb_inner 8 8 (Z.land (Z.shiftl g 3) 255, 5, n, f, []) in
  (n1, f1, acc ++ out1).
Proof.
  unfold Bech32.cb_byte. change (8 - 5) with 3.
  rewrite cb_inner_app. destruct (Bech32.cb_inner 8 8 _) as [[[[? ?] ?] ?] ?].
  reflexivity.
Qed.

Lemma fold_8_5 (data : list Z) : forall n f acc,
  0 <= f < 5 -> 0 <= n < 2 ^ f ->
  exists n' f' out,
    fold_left (Bech32.cb_byte 8 5) data (n, f, acc) = (n', f', acc ++ out) /\
    0 <= f' < 5 /\ 0 <= n' < 2 ^ f' /\ Forall (fun v => inrange 0 32 v = true) out /\
    bitsOf n (Z.to_nat f) ++ bitstream 8 (map (fun b => Z.land b 255) data)
    = bitstream 5 out ++ bitsOf n' (Z.to_nat f').
Proof.
  induction data as [|b data IH]; intros n f acc Hf Hn.
  - exists n, f, []. simpl. rewrite !app_nil_r. auto.
  - change (fold_left (Bech32.cb_byte 8 5) (b :: data) (n, f, acc))
      with (fold_left (Bech32.cb_byte 8 5) data (Bech32.cb_byte 8 5 (n, f, acc) b)).
    rewrite cb_byte_8_5.
    pose proof (step_8_5 f n (Z.land b 255) Hf Hn (land255_range b)) as Hs.
    destruct (Bech32.cb_inner 8 5 _) as [[[[? ?] n1] f1] out1].
    destruct Hs as (Hf1 & Hn1 & Ho1 & Hb1).
    destruct (IH n1 f1 (acc ++ out1) Hf1 Hn1) as (n' & f' & out2 & Hfold & Hf' & Hn' & Ho2 & Hb2).
    exists n', f', (out1 ++ out2). rewrite Hfold, app_assoc.
    repeat split; try tauto.
    + apply Forall_app; auto.
    + change (bitstream 8 (map (fun b0 => Z.land b0 255) (b :: data)))
        with (bitsOf (Z.land b 255) 8 ++ bitstream 8 (map (fun b0 => Z.land b0 255) data)).
      rewrite app_assoc, Hb1, <- app_assoc, Hb2, bitstream_app, app_assoc. reflexivity.
Qed.

Lemma fold_5_8 (groups : list Z) : forall n f acc,
  0 <= f < 8 -> 0 <= n < 2 ^ f -> Forall (fun v => inrange 0 32 v = true) groups ->
  exists n' f' out,
    fold_left (Bech32.cb_byte 5 8) groups (n, f, acc) = (n', f', acc ++ out) /\
    0 <= f' < 8 /\ 0 <= n' < 2 ^ f' /\ Forall (fun v => inrange 0 256 v = true) out /\
    bitsOf n (Z.to_nat f) ++ bitstream 5 groups = bitstream 8 out ++ bitsOf n' (Z.to_nat f').
Proof.
  induction groups as [|g groups IH]; intros n f acc Hf Hn Hg.
  - exists n, f, []. simpl. rewrite !app_nil_r. auto.
  - inversion Hg as [|? ? Hg0 Hgs]; subst. apply inrange_spec in Hg0.
    change (fold_left (Bech32.cb_byte 5 8) (g :: groups) (n, f, acc))
      with (fold_left (Bech32.cb_byte 5 8) groups (Bech32.cb_byte 5 8 (n, f, acc) g)).
    rewrite cb_byte_5_8.
    pose proof (step_5_8 f n g Hf Hn Hg0) as Hs.
    destruct (Bech32.cb_inner 8 8 _) as [[[[? ?] n1] f1] out1].
    destruct Hs as (Hf1 & Hn1 & Ho1 & Hb1).
    destruct (IH n1 f1 (acc ++ out1) Hf1 Hn1 Hgs) as (n' & f' & out2 & Hfold & Hf' & Hn' & Ho2 & Hb2).
    exists n', f', (out1 ++ out2). rewrite Hfold, app_assoc.
    repeat split; try tauto.
    + apply Forall_app; auto.
    + change (bitstream 5 (g :: groups)) with (bitsOf g 5 ++ bitstream 5 groups).
      rewrite app_assoc, Hb1, <- app_assoc, Hb2, bitstream_app, app_assoc. reflexivity.
Qed.


Lemma map_land255 (p : list Z) : Forall is_byte p -> map (fun b => Z.land b 255) p = p.
Proof.
  induction 1 as [|b p Hb _ IH]; simpl; auto. rewrite IH. f_equal.
  apply inrange_spec in Hb. change 255 with (Z.ones 8). rewrite Z.land_ones by lia.
  apply Z.mod_small. lia.
Qed.

Lemma bitsOf_len_eq (n : Z) (w : nat) (l : list bool) :
  length (l ++ bitsOf n w) = (length l + w)%nat.
Proof. rewrite length_app, length_bitsOf. reflexivity. Qed.

(** [ConvertBits(p, 8, 5, true)] on a 20-byte payload: 32 groups, no padding *)
Lemma ConvertBits_8_5_20 (p : list Z) :
  length p = 20%nat -> Forall is_byte p ->
  exists G, Bech32.ConvertBits p 8 5 true = (G, None) /\ length G = 32%nat /\
            Forall (fun v => inrange 0 32 v = true) G /\ bitstream 5 G = bitstream 8 p.
Proof.
  intros Hl Hp. unfold Bech32.ConvertBits. simpl (_ || _).
  destruct (fold_8_5 p 0 0 [] ltac:(lia) ltac:(simpl; lia))
    as (n' & f' & out & Hfold & Hf' & Hn' & Hout & Hbits).
  rewrite Hfold. rewrite map_land255 in Hbits by exact Hp.
  simpl in Hbits. pose proof (f_equal (@length bool) Hbits) as HL.
  rewrite bitsOf_len_eq, !length_bitstream, Hl in HL.
  assert (f' = 0) by lia. subst f'.
  simpl. exists out. rewrite Hbits, app_nil_r. repeat split; auto. lia.
Qed.

(** [ConvertBits(data, 8, 5, true)] never fails and yields 5-bit groups *)
Lemma ConvertBits_8_5_ok (data : list Z) :
  exists G, Bech32.ConvertBits data 8 5 true = (G, None) /\
            Forall (fun v => inrange 0 32 v = true) G.
Proof.
  unfold Bech32.ConvertBits. simpl (_ || _).
  destruct (fold_8_5 data 0 0 [] ltac:(lia) ltac:(simpl; lia))
    as (n' & f' & out & Hfold & Hf' & Hn' & Hout & _).
  rewrite Hfold. simpl andb.
  destruct (0 <? f') eqn:Ef.
  - simpl. exists (out ++ [Z.land (Z.shiftl n' (5 - f')) 255]). split; [reflexivity|].
    apply Forall_app. split; auto. constructor; auto.
    pose proof check_pad_true as H. unfold check_pad in H.
    apply (forallb_Zrange _ 5) with (v := f') in H; [|simpl; lia].
    apply (forallb_Zrange _ (Z.to_nat (2 ^ f'))) with (v := n') in H; [|rewrite pow2_to_nat; lia].
    exact H.
  - simpl. rewrite Ef. simpl. exists out. auto.
Qed.

(** [ConvertBits(G, 5, 8, false)] recovers the 20 bytes whose stream [G] carries *)
Lemma ConvertBits_5_8_20 (G p : list Z) :
  Forall (fun v => inrange 0 32 v = true) G -> bitstream 5 G = bitstream 8 p ->
  length p = 20%nat -> Forall is_byte p ->
  Bech32.ConvertBits G 5 8 false = (p, None).
Proof.
  intros HG Hbits Hl Hp. unfold Bech32.ConvertBits. simpl (_ || _).
  destruct (fold_5_8 G 0 0 [] ltac:(lia) ltac:(simpl; lia) HG)
    as (n' & f' & out & Hfold & Hf' & Hn' & Hout & Hb).
  rewrite Hfold. simpl in Hb. rewrite Hbits in Hb.
  pose proof (f_equal (@length bool) Hb) as HL.
  rewrite bitsOf_len_eq, !length_bitstream, Hl in HL.
  assert (f' = 0) by lia. subst f'. simpl in Hb. rewrite app_nil_r in Hb.
  apply bitstream8_inj in Hb; auto. subst. reflexivity.
Qed.

(* ------------------------------------------------------------------ *)
(** ** Proofs: the bech32 checksum *)

Ltac xor_solve :=
  apply Z.bits_inj'; intros ? ?;
  repeat rewrite ?Z.lxor_spec, ?Z.bits_0; btauto.

Lemma polymod_step_eq (chk v : Z) :
  Bech32.polymod_step chk v =
  gen_fold (Z.shiftr chk 25) (seq 0 5) (Z.lxor (Z.shiftl (Z.land chk 0x1ffffff) 5) v).
Proof. reflexivity. Qed.

Lemma gen_fold_cons (b : Z) (i : nat) (l : list nat) (chk : Z) :
  gen_fold b (i :: l) chk =
  gen_fold b l (if Z.testbit b (Z.of_nat i) then Z.lxor chk (nth i Bech32.gen 0) else chk).
Proof. reflexivity. Qed.

Lemma gen_fold_out (b : Z) (l : list nat) : forall chk,
  gen_fold b l chk = Z.lxor chk (gen_fold b l 0).
Proof.
  induction l as [|i l IH]; intros chk.
  - symmetry. apply Z.lxor_0_r.
  - rewrite !gen_fold_cons.
    destruct (Z.testbit b (Z.of_nat i)).
    + rewrite (IH (Z.lxor chk _)), (IH (Z.lxor 0 _)), Z.lxor_0_l, Z.lxor_assoc. reflexivity.
    + rewrite (IH chk). reflexivity.
Qed.

Lemma gen_fold_lin (b b' : Z) (l : list nat) :
  gen_fold (Z.lxor b b') l 0 = Z.lxor (gen_fold b l 0) (gen_fold b' l 0).
Proof.
  induction l as [|i l IH]; [reflexivity|].
  rewrite !gen_fold_cons, Z.lxor_spec.
  rewrite (gen_fold_out (Z.lxor b b')), (gen_fold_out b), (gen_fold_out b'), IH.
  destruct (Z.testbit b (Z.of_nat i)), (Z.testbit b' (Z.of_nat i)); simpl; xor_solve.
Qed.

Lemma land_lxor_l (a b c : Z) : Z.land (Z.lxor a b) c = Z.lxor (Z.land a c) (Z.land b c).
Proof. apply Z.bits_inj'; intros. rewrite Z.land_spec, !Z.lxor_spec, !Z.land_spec. btauto. Qed.

(** one step of [bech32Polymod] is linear over xor *)
Lemma polymod_step_lin (a a' v v' : Z) :
  Bech32.polymod_step (Z.lxor a a') (Z.lxor v v') =
  Z.lxor (Bech32.polymod_step a v) (Bech32.polymod_step a' v').
Proof.
  rewrite !polymod_step_eq, !(gen_fold_out _ _ (Z.lxor _ _)).
  rewrite Z.shiftr_lxor, gen_fold_lin, land_lxor_l, Z.shiftl_lxor.
  xor_solve.
Qed.

Lemma polymod_step_0_l (v : Z) : Bech32.polymod_step 0 v = v.
Proof. reflexivity. Qed.

Lemma polymod_step_v (a v : Z) : Bech32.polymod_step a v = Z.lxor (Bech32.polymod_step a 0) v.
Proof.
  rewrite <- (Z.lxor_0_r a) at 1. rewrite <- (Z.lxor_0_l v) at 1.
  rewrite polymod_step_lin, polymod_step_0_l. reflexivity.
Qed.

Lemma polymod_zeros_lin (k : nat) : forall a a',
  fold_left Bech32.polymod_step (repeat 0 k) (Z.lxor a a') =
  Z.lxor (fold_left Bech32.polymod_step (repeat 0 k) a)
         (fold_left Bech32.polymod_step (repeat 0 k) a').
Proof.
  induction k as [|k IH]; intros a a'; [reflexivity|]. simpl.
  rewrite <- IH, <- polymod_step_lin, Z.lxor_0_r. reflexivity.
Qed.

(** feeding values [cs] from [a]: the zero-input run from [a] xor the run
    on [cs] from 0 *)
Lemma polymod_split (cs : list Z) : forall a,
  fold_left Bech32.polymod_step cs a =
  Z.lxor (fold_left Bech32.polymod_step (repeat 0 (length cs)) a)
         (fold_left Bech32.polymod_step cs 0).
Proof.
  induction cs as [|c cs IH]; intros a; simpl.
  - rewrite Z.lxor_0_r. reflexivity.
  - rewrite IH, (IH (Bech32.polymod_step 0 c)), polymod_step_0_l.
    rewrite polymod_step_v, polymod_zeros_lin, Z.lxor_assoc. reflexivity.
Qed.

Lemma testbit_small (v k i : Z) : 0 <= v < 2 ^ k -> 0 <= k <= i -> Z.testbit v i = false.
Proof.
  intros Hv Hi. apply Z.testbit_false; [lia|].
  rewrite Z.div_small; [reflexivity|].
  split; [lia|]. apply Z.lt_le_trans with (2 ^ k); [lia|]. apply Z.pow_le_mono_r; lia.
Qed.

Lemma lxor_bound (k a b : Z) : 0 <= k -> 0 <= a < 2 ^ k -> 0 <= b < 2 ^ k -> 0 <= Z.lxor a b < 2 ^ k.
Proof.
  intros Hk Ha Hb.
  assert (E : Z.lxor a b = Z.land (Z.lxor a b) (Z.ones k)).
  { apply Z.bits_inj'; intros i Hi. rewrite Z.land_spec, !Z.lxor_spec.
    destruct (Z.lt_ge_cases i k).
    - rewrite Z.ones_spec_low by lia. btauto.
    - rewrite Z.ones_spec_high, (testbit_small a k i), (testbit_small b k i) by lia. reflexivity. }
  rewrite E, Z.land_ones by lia. apply Z.mod_pos_bound. apply Z.pow_pos_nonneg; lia.
Qed.

Lemma gen_bound (i : nat) : 0 <= nth i Bech32.gen 0 < 2 ^ 30.
Proof. do 5 (destruct i as [|i]; [simpl; lia|]). destruct i; simpl; lia. Qed.

Lemma gen_fold_bound (b : Z) (l : list nat) : forall chk,
  0 <= chk < 2 ^ 30 -> 0 <= gen_fold b l chk < 2 ^ 30.
Proof.
  induction l as [|i l IH]; intros chk Hc; [exact Hc|].
  rewrite gen_fold_cons. apply IH.
  destruct (Z.testbit b _); [|exact Hc]. apply lxor_bound; [lia|exact Hc|apply gen_bound].
Qed.

Lemma polymod_step_bound (chk v : Z) : 0 <= v < 32 -> 0 <= Bech32.polymod_step chk v < 2 ^ 30.
Proof.
  intros Hv. rewrite polymod_step_eq. apply gen_fold_bound, lxor_bound; [lia| |lia].
  rewrite Z.shiftl_mul_pow2 by lia. change 0x1ffffff with (Z.ones 25).
  rewrite Z.land_ones by lia.
  pose proof (Z.mod_pos_bound chk (2 ^ 25) ltac:(lia)). lia.
Qed.

Lemma polymod_bound (vs : list Z) : forall chk,
  Forall (fun v => inrange 0 32 v = true) vs -> 0 <= chk < 2 ^ 30 ->
  0 <= fold_left Bech32.polymod_step vs chk < 2 ^ 30.
Proof.
  induction vs as [|v vs IH]; intros chk Hv Hc; [exact Hc|].
  inversion Hv as [|? ? Hv0 Hvs]; subst. apply inrange_spec in Hv0.
  simpl. apply IH; auto. apply polymod_step_bound; lia.
Qed.

Lemma gen_fold_zero (l : list nat) : forall chk, gen_fold 0 l chk = chk.
Proof. induction l as [|i l IH]; intros chk; [reflexivity|]. rewrite gen_fold_cons, Z.bits_0. apply IH. Qed.

(** below 2^25 a step is a plain base-32 shift *)
Lemma polymod_step_small (chk v : Z) :
  0 <= chk < 2 ^ 25 -> 0 <= v < 32 -> Bech32.polymod_step chk v = chk * 32 + v.
Proof.
  intros Hc Hv. rewrite polymod_step_eq.
  rewrite Z.shiftr_div_pow2, Z.div_small by lia. rewrite gen_fold_zero.
  change 0x1ffffff with (Z.ones 25). rewrite Z.land_ones, Z.mod_small by lia.
  rewrite Z.shiftl_mul_pow2 by lia. change (2 ^ 5) with 32.
  rewrite <- Z.add_nocarry_lxor; [reflexivity|].
  apply Z.bits_inj'; intros i Hi. rewrite Z.land_spec, Z.bits_0.
  destruct (Z.lt_ge_cases i 5).
  - replace (chk * 32) with (Z.shiftl chk 5) by (rewrite Z.shiftl_mul_pow2; lia).
    rewrite Z.shiftl_spec_low by lia. reflexivity.
  - rewrite (testbit_small v 5 i) by (simpl; lia). apply andb_false_r.
Qed.

(** the six checksum groups of a 30-bit value, fed to the polymod from 0,
    give the value back *)
Lemma polymod_checksum_groups (c : Z) :
  0 <= c < 2 ^ 30 ->
  fold_left Bech32.polymod_step
    (map (fun i => Z.land (Z.shiftr c (5 * (5 - Z.of_nat i))) 31) (seq 0 6)) 0 = c.
Proof.
  intros Hc.
  change (map _ (seq 0 6)) with
    [Z.land (Z.shiftr c 25) 31; Z.land (Z.shiftr c 20) 31; Z.land (Z.shiftr c 15) 31;
     Z.land (Z.shiftr c 10) 31; Z.land (Z.shiftr c 5) 31; Z.land (Z.shiftr c 0) 31].
  cbn [fold_left].
  change 31 with (Z.ones 5). rewrite !Z.land_ones, !Z.shiftr_div_pow2 by lia.
  change (2 ^ 5) with 32. change (2 ^ 0) with 1. rewrite Z.div_1_r.
  change (2 ^ 25) with (32 * 32 * 32 * 32 * 32) in *.
  change (2 ^ 20) with (32 * 32 * 32 * 32). change (2 ^ 15) with (32 * 32 * 32).
  change (2 ^ 10) with (32 * 32). change (2 ^ 30) with (32 * 32 * 32 * 32 * 32 * 32) in Hc.
  rewrite <- !Z.div_div by lia.
  set (x1 := c / 32). set (x2 := x1 / 32). set (x3 := x2 / 32). set (x4 := x3 / 32).
  set (x5 := x4 / 32).
  pose proof (Z.div_mod c 32 ltac:(lia)). pose proof (Z.div_mod x1 32 ltac:(lia)).
  pose proof (Z.div_mod x2 32 ltac:(lia)). pose proof (Z.div_mod x3 32 ltac:(lia)).
  pose proof (Z.div_mod x4 32 ltac:(lia)).
  pose proof (Z.mod_pos_bound c 32 ltac:(lia)). pose proof (Z.mod_pos_bound x1 32 ltac:(lia)).
  pose proof (Z.mod_pos_bound x2 32 ltac:(lia)). pose proof (Z.mod_pos_bound x3 32 ltac:(lia)).
  pose proof (Z.mod_pos_bound x4 32 ltac:(lia)). pose proof (Z.mod_pos_bound x5 32 ltac:(lia)).
  assert (0 <= x5 < 32).
  { subst x5 x4 x3 x2 x1. rewrite !Z.div_div by lia.
    split; [apply Z.div_pos; lia|]. apply Z.div_lt_upper_bound; lia. }
  rewrite (Z.mod_small x5) by lia.
  rewrite (polymod_step_small 0 x5) by lia.
  rewrite (polymod_step_small (0 * 32 + x5)) by lia.
  rewrite (polymod_step_small ((0 * 32 + x5) * 32 + x4 mod 32)) by lia.
  rewrite (polymod_step_small (((0 * 32 + x5) * 32 + x4 mod 32) * 32 + x3 mod 32)) by lia.
  rewrite (polymod_step_small ((((0 * 32 + x5) * 32 + x4 mod 32) * 32 + x3 mod 32) * 32 + x2 mod 32)) by lia.
  rewrite (polymod_step_small _ (c mod 32)) by lia.
  lia.
Qed.


Lemma hrpExpand_in32 (hrp : gostring) : Forall in32 (Bech32.bech32HrpExpand hrp).
Proof.
  unfold Bech32.bech32HrpExpand, in32. apply Forall_app. split; [|apply Forall_cons; [reflexivity|]];
  apply Forall_forall; intros v Hv; apply in_map_iff in Hv; destruct Hv as (c & <- & _);
  apply inrange_spec; pose proof (N_ascii_bounded c); unfold ord.
  - rewrite Z.shiftr_div_pow2 by lia. split; [apply Z.div_pos; lia|].
    apply Z.div_lt_upper_bound; lia.
  - change 31 with (Z.ones 5). rewrite Z.land_ones by lia. apply Z.mod_pos_bound. lia.
Qed.

Lemma checksum_in32 (hrp : gostring) (data : list Z) : Forall in32 (Bech32.bech32Checksum hrp data).
Proof.
  unfold Bech32.bech32Checksum, in32. apply Forall_forall. intros v Hv.
  apply in_map_iff in Hv. destruct Hv as (i & <- & _). apply inrange_spec.
  change 31 with (Z.ones 5). rewrite Z.land_ones by lia. apply Z.mod_pos_bound. lia.
Qed.

Lemma length_checksum (hrp : gostring) (data : list Z) : length (Bech32.bech32Checksum hrp data) = 6%nat.
Proof. reflexivity. Qed.

(** [Encode]'s checksum always verifies *)
Lemma verify_encoded_checksum (hrp : gostring) (data : list Z) :
  Forall in32 data ->
  Bech32.bech32VerifyChecksum hrp (data ++ Bech32.bech32Checksum hrp data) = true.
Proof.
  intros Hd. unfold Bech32.bech32VerifyChecksum, Bech32.bech32Polymod.
  rewrite app_assoc, fold_left_app, polymod_split, length_checksum.
  unfold Bech32.bech32Checksum.
  set (vals := Bech32.bech32HrpExpand hrp ++ data).
  replace (Bech32.bech32HrpExpand hrp ++ data ++ [0; 0; 0; 0; 0; 0])
    with (vals ++ [0; 0; 0; 0; 0; 0]) by (subst vals; rewrite app_assoc; reflexivity).
  unfold Bech32.bech32Polymod. rewrite fold_left_app. simpl (repeat 0 6).
  set (M := fold_left Bech32.polymod_step [0; 0; 0; 0; 0; 0] (fold_left Bech32.polymod_step vals 1)).
  assert (HM : 0 <= M < 2 ^ 30).
  { subst M. rewrite <- fold_left_app. apply polymod_bound; [|lia].
    apply Forall_app. split; [apply Forall_app; split; [apply hrpExpand_in32|exact Hd]|].
    repeat constructor. }
  rewrite polymod_checksum_groups by (apply lxor_bound; lia).
  rewrite <- Z.lxor_assoc, Z.lxor_nilpotent, Z.lxor_0_l. apply Z.eqb_refl.
Qed.

Lemma toChars_ok (vs : list Z) : Forall in32 vs -> Bech32.toChars vs = (map charOf vs, None).
Proof.
  induction 1 as [|v vs Hv _ IH]; [reflexivity|].
  unfold in32 in Hv. apply inrange_spec in Hv. cbn [Bech32.toChars map]. rewrite IH.
  replace (Z.of_nat (length Bech32.charset) <=? v) with false by (symmetry; apply Z.leb_gt; simpl; lia).
  reflexivity.
Qed.

Lemma charset_props (v : Z) : 0 <= v < 32 ->
  inrange 33 127 (ord (charOf v)) = true /\ isUpperAscii (charOf v) = false /\
  Ascii.eqb (charOf v) "1" = false /\ IndexByte Bech32.charset (charOf v) = v.
Proof.
  intros Hv. pose proof check_charset_true as H. unfold check_charset in H.
  apply (forallb_Zrange _ 32) with (v := v) in H; [|simpl; lia].
  unfold charOf. rewrite !andb_true_iff, !negb_true_iff, Z.eqb_eq in H. tauto.
Qed.

Lemma toBytes_toChars (vs : list Z) : Forall in32 vs -> Bech32.toBytes (map charOf vs) = (vs, None).
Proof.
  induction 1 as [|v vs Hv _ IH]; [reflexivity|].
  unfold in32 in Hv. apply inrange_spec in Hv. cbn [Bech32.toBytes map]. rewrite IH.
  destruct (charset_props v Hv) as (_ & _ & _ & ->).
  replace (v <? 0) with false by (symmetry; apply Z.ltb_ge; lia). reflexivity.
Qed.

(** [Encode] on 5-bit groups *)
Lemma Encode_ok (hrp : gostring) (G : list Z) : Forall in32 G ->
  Bech32.Encode hrp G =
  (hrp ++ ["1"%char] ++ map charOf (G ++ Bech32.bech32Checksum hrp G), None).
Proof.
  intros HG. unfold Bech32.Encode. rewrite toChars_ok; [reflexivity|].
  apply Forall_app. split; [exact HG|apply checksum_in32].
Qed.

Lemma Forall_in32_of (G : list Z) : Forall (fun v => inrange 0 32 v = true) G -> Forall in32 G.
Proof. exact (fun H => H). Qed.

(** [ConvertAndEncode] never fails, so [cacheBech32Addr] never panics *)
Lemma ConvertAndEncode_no_error (hrp : gostring) (data : list Z) :
  snd (ConvertAndEncode hrp data) = None.
Proof.
  unfold ConvertAndEncode. destruct (ConvertBits_8_5_ok data) as (G & -> & HG).
  rewrite Encode_ok by exact HG. reflexivity.
Qed.

(* ------------------------------------------------------------------ *)
(** ** Proofs: decoding an encoded address *)

Lemma find_none {A} (f : A -> bool) (l : list A) :
  Forall (fun x => f x = false) l -> find f l = None.
Proof. induction 1 as [|x l Hx _ IH]; simpl; [reflexivity|]. rewrite Hx. exact IH. Qed.

Lemma ToLower_id (l : gostring) : Forall (fun c => isUpperAscii c = false) l -> ToLower l = l.
Proof. induction 1 as [|c l Hc _ IH]; simpl; [reflexivity|]. rewrite Hc, IH. reflexivity. Qed.

Lemma gostr_eqb_refl (a : gostring) : gostr_eqb a a = true.
Proof. unfold gostr_eqb. destruct (list_eq_dec ascii_dec a a); congruence. Qed.

Lemma gostr_eqb_true (a b : gostring) : gostr_eqb a b = true -> a = b.
Proof. unfold gostr_eqb. destruct (list_eq_dec ascii_dec a b); congruence. Qed.

Lemma LastIndexByte_from_app (l1 l2 : gostring) (c : ascii) : forall i acc,
  LastIndexByte_from i (l1 ++ l2) c acc =
  LastIndexByte_from (i + Z.of_nat (length l1)) l2 c (LastIndexByte_from i l1 c acc).
Proof.
  induction l1 as [|d l1 IH]; intros i acc; simpl.
  - rewrite Z.add_0_r. reflexivity.
  - rewrite IH. f_equal. lia.
Qed.

Lemma LastIndexByte_from_absent (l : gostring) (c : ascii) : forall i acc,
  Forall (fun d => Ascii.eqb d c = false) l -> LastIndexByte_from i l c acc = acc.
Proof.
  induction l as [|d l IH]; intros i acc H; [reflexivity|].
  inversion H as [|? ? Hd Hl]; subst. simpl. rewrite Hd. apply IH, Hl.
Qed.

Lemma valid_prefix_spec (pre : gostring) :
  valid_prefix pre = true ->
  (1 <= length pre <= 900)%nat /\
  Forall (fun c => inrange 33 127 (ord c) = true /\ isUpperAscii c = false) pre.
Proof.
  unfold valid_prefix. rewrite !andb_true_iff, Nat.leb_le, Nat.leb_le, forallb_forall.
  intros [[H1 H2] H3]. split; [lia|]. apply Forall_forall. intros c Hc.
  specialize (H3 c Hc). rewrite andb_true_iff, negb_true_iff in H3. exact H3.
Qed.

Lemma charOf_props (vs : list Z) : Forall in32 vs ->
  Forall (fun c => inrange 33 127 (ord c) = true /\ isUpperAscii c = false /\
                   Ascii.eqb c "1" = false) (map charOf vs).
Proof.
  induction 1 as [|v vs Hv _ IH]; constructor; auto.
  unfold in32 in Hv. apply inrange_spec in Hv. destruct (charset_props v Hv) as (? & ? & ? & _).
  auto.
Qed.


Lemma Decode_encoded (hrp : gostring) (G : list Z) :
  valid_prefix hrp = true -> Forall in32 G -> length G = 32%nat ->
  Bech32.Decode (encoded hrp G) 1023 = (hrp, G, None).
Proof.
  intros Hv HG HGl. apply valid_prefix_spec in Hv. destruct Hv as [Hlen Hchars].
  assert (HW : Forall in32 (G ++ Bech32.bech32Checksum hrp G))
    by (apply Forall_app; split; [exact HG|apply checksum_in32]).
  pose proof (charOf_props _ HW) as Hc.
  set (W := G ++ Bech32.bech32Checksum hrp G) in *.
  assert (HWl : length W = 38%nat) by (subst W; rewrite length_app, length_checksum; lia).
  assert (HL : length (encoded hrp G) = (length hrp + 39)%nat)
    by (unfold encoded; fold W; rewrite !length_app, length_map; simpl; lia).
  assert (Hall : Forall (fun c => inrange 33 127 (ord c) = true /\ isUpperAscii c = false)
                        (encoded hrp G)).
  { unfold encoded. fold W. apply Forall_app. split; [exact Hchars|].
    apply Forall_app. split; [repeat constructor|].
    eapply Forall_impl; [|exact Hc]. simpl. tauto. }
  unfold Bech32.Decode. rewrite HL.
  replace (Nat.ltb (length hrp + 39) 8 || Nat.ltb 1023 (length hrp + 39)) with false
    by (symmetry; apply orb_false_iff; split; apply Nat.ltb_ge; lia).
  rewrite find_none.
  2:{ eapply Forall_impl; [|exact Hall]. intros c [Hr _]. apply inrange_spec in Hr.
      apply orb_false_iff. split; apply Z.ltb_ge; lia. }
  rewrite ToLower_id by (eapply Forall_impl; [|exact Hall]; tauto).
  rewrite gostr_eqb_refl. simpl (negb true && _).
  assert (Hone : LastIndexByte (encoded hrp G) "1" = Z.of_nat (length hrp)).
  { unfold LastIndexByte, encoded. fold W. rewrite app_assoc, LastIndexByte_from_app.
    rewrite LastIndexByte_from_app. simpl.
    apply LastIndexByte_from_absent. eapply Forall_impl; [|exact Hc]. tauto. }
  rewrite Hone, HL.
  replace ((Z.of_nat (length hrp) <? 1) || (Z.of_nat (length hrp + 39) <? Z.of_nat (length hrp) + 7))
    with false by (symmetry; apply orb_false_iff; split; apply Z.ltb_ge; lia).
  rewrite Nat2Z.id.
  replace (firstn (length hrp) (encoded hrp G)) with hrp
    by (unfold encoded; rewrite firstn_app, Nat.sub_diag, firstn_all; simpl; rewrite app_nil_r; reflexivity).
  replace (skipn (length hrp + 1) (encoded hrp G)) with (map charOf W)
    by (unfold encoded; fold W; rewrite app_assoc, skipn_app, length_app; simpl;
        rewrite skipn_all2 by (rewrite length_app; simpl; lia);
        replace (length hrp + 1 - (length hrp + 1))%nat with 0%nat by lia; reflexivity).
  rewrite toBytes_toChars by exact HW.
  subst W. rewrite verify_encoded_checksum by exact HG. simpl negb.
  rewrite HWl. change (38 - 6)%nat with 32%nat.
  rewrite firstn_app, HGl, Nat.sub_diag, firstn_O, app_nil_r, <- HGl, firstn_all.
  reflexivity.
Qed.

Lemma AccAddressString_encoded (pre : gostring) (p : list Z) :
  length p = 20%nat -> Forall is_byte p ->
  exists G, AccAddressString pre p = encoded pre G /\ Forall in32 G /\ length G = 32%nat /\
            bitstream 5 G = bitstream 8 p.
Proof.
  intros Hl Hp. destruct (ConvertBits_8_5_20 p Hl Hp) as (G & HC & HGl & HG & Hb).
  exists G. split; [|auto].
  unfold AccAddressString. destruct p as [|b p']; [discriminate Hl|].
  unfold ConvertAndEncode. rewrite HC, Encode_ok by exact HG. reflexivity.
Qed.

Lemma TrimSpaceEmpty_prefixed (pre rest : gostring) :
  valid_prefix pre = true -> TrimSpaceEmpty (pre ++ rest) = false.
Proof.
  intros Hv. apply valid_prefix_spec in Hv. destruct Hv as [Hl Hc].
  destruct pre as [|c pre']; [simpl in Hl; lia|].
  inversion Hc as [|? ? [Hr _] _]; subst. apply inrange_spec in Hr.
  simpl. unfold isSpaceByte. simpl.
  replace (ord c =? 9) with false by (symmetry; apply Z.eqb_neq; lia).
  replace (ord c =? 10) with false by (symmetry; apply Z.eqb_neq; lia).
  replace (ord c =? 11) with false by (symmetry; apply Z.eqb_neq; lia).
  replace (ord c =? 12) with false by (symmetry; apply Z.eqb_neq; lia).
  replace (ord c =? 13) with false by (symmetry; apply Z.eqb_neq; lia).
  replace (ord c =? 32) with false by (symmetry; apply Z.eqb_neq; lia).
  simpl. unfold isSpace2, isSpace3.
  replace (ord c =? 194) with false by (symmetry; apply Z.eqb_neq; lia).
  replace (ord c =? 225) with false by (symmetry; apply Z.eqb_neq; lia).
  replace (ord c =? 226) with false by (symmetry; apply Z.eqb_neq; lia).
  replace (ord c =? 227) with false by (symmetry; apply Z.eqb_neq; lia).
  simpl. destruct (pre' ++ rest) as [|c2 [|c3 l]]; reflexivity.
Qed.

(** the bech32 round trip of a 20-byte account address *)
Lemma bech32_roundtrip (pre : gostring) (p : list Z) :
  valid_prefix pre = true -> length p = 20%nat -> Forall is_byte p ->
  AccAddressFromBech32 pre (AccAddressString pre p) = (p, None).
Proof.
  intros Hv Hl Hp.
  destruct (AccAddressString_encoded pre p Hl Hp) as (G & -> & HG & HGl & Hb).
  unfold AccAddressFromBech32. unfold encoded at 1. rewrite TrimSpaceEmpty_prefixed by exact Hv.
  assert (Hne : encoded pre G <> []).
  { unfold encoded. intros H. apply (f_equal (@length ascii)) in H.
    rewrite !length_app in H. simpl in H. lia. }
  unfold GetFromBech32. destruct (encoded pre G) as [|c rest] eqn:E; [congruence|].
  rewrite <- E. unfold DecodeAndConvert. rewrite Decode_encoded by assumption.
  rewrite (ConvertBits_5_8_20 G p) by assumption.
  rewrite gostr_eqb_refl. simpl negb. cbv iota.
  unfold VerifyAddressFormat. rewrite Hl. reflexivity.
Qed.

(* ------------------------------------------------------------------ *)
(** ** Proofs: hex addresses and the EIP-55 rendering *)

Lemma hextable_case (c : ascii) (flag : bool) : In c hextable ->
  let c' := if (ord "9" <? ord c) && flag then chr (ord c - 32) else c in
  isHexCharacter c' = true /\ ToLower [c'] = [c] /\ fromHexChar c' = fromHexChar c /\
  Ascii.eqb c' "x" = false /\ Ascii.eqb c' "X" = false.
Proof.
  intros H. simpl in H.
  repeat (destruct H as [<-|H]; [destruct flag; vm_compute; auto|]). destruct H.
Qed.

Lemma hexdigit_in (v : Z) : In (hexdigit v) hextable.
Proof.
  unfold hexdigit. destruct (Nat.lt_ge_cases (Z.to_nat v) (length hextable)).
  - apply nth_In. exact H.
  - rewrite nth_overflow by exact H. simpl. auto.
Qed.

Lemma fromHexChar_hexdigit (v : Z) : 0 <= v < 16 -> fromHexChar (hexdigit v) = Some v.
Proof.
  intros Hv. assert (Hc : In v (Zrange 16)) by (apply Zrange_In; simpl; lia).
  simpl in Hc. repeat (destruct Hc as [<-|Hc]; [reflexivity|]). destruct Hc.
Qed.

Lemma checksum_loop_cons2 (h : list Z) (i : nat) (c1 c2 : ascii) (rest : gostring) :
  exists f1 f2,
    checksum_loop h i (c1 :: c2 :: rest) =
    (if (ord "9" <? ord c1) && f1 then chr (ord c1 - 32) else c1) ::
    (if (ord "9" <? ord c2) && f2 then chr (ord c2 - 32) else c2) ::
    checksum_loop h (S (S i)) rest.
Proof. simpl. eexists _, _. reflexivity. Qed.

Lemma checksum_loop_cons (h : list Z) (i : nat) (c : ascii) (rest : gostring) :
  exists f, checksum_loop h i (c :: rest) =
    (if (ord "9" <? ord c) && f then chr (ord c - 32) else c) :: checksum_loop h (S i) rest.
Proof. simpl. eexists. reflexivity. Qed.

Lemma ToLower_cons (c : ascii) (l : gostring) : ToLower (c :: l) = ToLower [c] ++ ToLower l.
Proof. reflexivity. Qed.

Lemma checksum_loop_props (h : list Z) (digits : gostring) : forall i,
  Forall (fun c => In c hextable) digits ->
  Forall (fun c => isHexCharacter c = true /\ Ascii.eqb c "x" = false /\ Ascii.eqb c "X" = false)
         (checksum_loop h i digits) /\
  ToLower (checksum_loop h i digits) = digits /\
  length (checksum_loop h i digits) = length digits.
Proof.
  induction digits as [|c digits IH]; intros i Hd; [simpl; auto|].
  inversion Hd as [|? ? Hc Hds]; subst.
  destruct (IH (S i) Hds) as (H1 & H2 & H3).
  destruct (checksum_loop_cons h i c digits) as (f & ->).
  destruct (hextable_case c f Hc) as (Ha & Hb & _ & Hx & HX).
  repeat split.
  - constructor; auto.
  - rewrite ToLower_cons, Hb, H2. reflexivity.
  - simpl. rewrite H3. reflexivity.
Qed.

Lemma hexEncode_in (a : list Z) : Forall (fun c => In c hextable) (hexEncode a).
Proof.
  induction a as [|v a IH]; simpl; [constructor|].
  constructor; [apply hexdigit_in|]. constructor; [apply hexdigit_in|]. exact IH.
Qed.

Lemma length_hexEncode (a : list Z) : length (hexEncode a) = (2 * length a)%nat.
Proof. induction a as [|v a IH]; simpl; [reflexivity|]. rewrite IH. lia. Qed.

Lemma checksumHex_shape (a : list Z) :
  checksumHex a = "0"%char :: "x"%char ::
                  checksum_loop (Keccak.keccak256 (map ord (hexEncode a))) 2 (hexEncode a).
Proof. reflexivity. Qed.

(** the checksummed digits decode, pair by pair, to the bytes they encode *)
Lemma hexDecode_checksum (h : list Z) (a : list Z) : forall i,
  Forall is_byte a -> hexDecode (checksum_loop h i (hexEncode a)) = (a, None).
Proof.
  induction a as [|v a IH]; intros i Ha; [reflexivity|].
  inversion Ha as [|? ? Hv Has]; subst. apply inrange_spec in Hv.
  change (hexEncode (v :: a)) with (hexdigit (v / 16) :: hexdigit (v mod 16) :: hexEncode a).
  destruct (checksum_loop_cons2 h i (hexdigit (v / 16)) (hexdigit (v mod 16)) (hexEncode a))
    as (f1 & f2 & ->).
  destruct (hextable_case _ f1 (hexdigit_in (v / 16))) as (_ & _ & E1 & _).
  destruct (hextable_case _ f2 (hexdigit_in (v mod 16))) as (_ & _ & E2 & _).
  simpl hexDecode. rewrite E1, E2.
  rewrite (fromHexChar_hexdigit (v / 16))
    by (split; [apply Z.div_pos | apply Z.div_lt_upper_bound]; lia).
  rewrite (fromHexChar_hexdigit (v mod 16)) by (apply Z.mod_pos_bound; lia).
  rewrite (IH (S (S i)) Has). f_equal. f_equal.
  pose proof (Z.div_mod v 16 ltac:(lia)). lia.
Qed.

Lemma IsHexAddress_checksumHex (a : list Z) :
  length a = 20%nat -> IsHexAddress (checksumHex a) = true.
Proof.
  intros Hl. rewrite checksumHex_shape.
  destruct (checksum_loop_props (Keccak.keccak256 (map ord (hexEncode a))) (hexEncode a) 2
              (hexEncode_in a)) as (Hc & _ & Hlen).
  unfold IsHexAddress. simpl has0xPrefix. cbv iota. simpl skipn.
  unfold isHex. rewrite Hlen, length_hexEncode, Hl. simpl.
  apply forallb_forall. intros c Hin. rewrite Forall_forall in Hc. apply (Hc c Hin).
Qed.

Lemma BytesToAddress_20 (a : list Z) : length a = 20%nat -> BytesToAddress a = a.
Proof. intros Hl. unfold BytesToAddress. rewrite Hl. simpl. rewrite Hl. reflexivity. Qed.

Lemma HexToAddress_checksumHex (a : list Z) :
  length a = 20%nat -> Forall is_byte a -> HexToAddress (checksumHex a) = a.
Proof.
  intros Hl Ha. unfold HexToAddress, FromHex. rewrite checksumHex_shape.
  simpl has0xPrefix. cbv iota. simpl skipn.
  destruct (checksum_loop_props (Keccak.keccak256 (map ord (hexEncode a))) (hexEncode a) 2
              (hexEncode_in a)) as (_ & _ & Hlen).
  rewrite Hlen, length_hexEncode, Hl. change (Nat.odd (2 * 20)) with false. cbv iota.
  unfold Hex2Bytes. rewrite hexDecode_checksum by exact Ha. simpl.
  apply BytesToAddress_20. exact Hl.
Qed.

Lemma ToLower_checksumHex (a : list Z) : ToLower (checksumHex a) = hexBuf a.
Proof.
  rewrite checksumHex_shape.
  destruct (checksum_loop_props (Keccak.keccak256 (map ord (hexEncode a))) (hexEncode a) 2
              (hexEncode_in a)) as (_ & H & _).
  rewrite ToLower_cons, (ToLower_cons "x"%char), H. reflexivity.
Qed.

Lemma length_checksumHex (a : list Z) : length (checksumHex a) = (2 + 2 * length a)%nat.
Proof.
  rewrite checksumHex_shape.
  destruct (checksum_loop_props (Keccak.keccak256 (map ord (hexEncode a))) (hexEncode a) 2
              (hexEncode_in a)) as (_ & _ & H).
  simpl. rewrite H, length_hexEncode. reflexivity.
Qed.

Ltac ordlits :=
  change (ord "0") with 48 in *; change (ord "9") with 57 in *;
  change (ord "a") with 97 in *; change (ord "f") with 102 in *;
  change (ord "A") with 65 in *; change (ord "F") with 70 in *.

Lemma isHexCharacter_value (c : ascii) :
  isHexCharacter c = true -> exists v, fromHexChar c = Some v /\ 0 <= v < 16.
Proof.
  unfold isHexCharacter, fromHexChar. intros H.
  destruct ((ord "0" <=? ord c) && (ord c <=? ord "9")) eqn:E1.
  - eexists; split; [reflexivity|]. apply andb_prop in E1 as [E1 E2].
    apply Z.leb_le in E1, E2. ordlits. lia.
  - destruct ((ord "a" <=? ord c) && (ord c <=? ord "f")) eqn:E2.
    + eexists; split; [reflexivity|]. apply andb_prop in E2 as [E2 E3].
      apply Z.leb_le in E2, E3. ordlits. lia.
    + simpl in H. rewrite H. eexists; split; [reflexivity|]. apply andb_prop in H as [E3 E4].
      apply Z.leb_le in E3, E4. ordlits. lia.
Qed.

(** an even-length string of hex digits decodes without error to half as
    many bytes *)
Lemma hexDecode_hex : forall l : gostring,
  Nat.even (length l) = true -> forallb isHexCharacter l = true ->
  snd (hexDecode l) = None /\ (2 * length (fst (hexDecode l)))%nat = length l /\
  Forall is_byte (fst (hexDecode l)).
Proof.
  fix IH 1. intros [|p [|q rest]] He Hh.
  - simpl. auto.
  - discriminate He.
  - simpl in Hh. apply andb_prop in Hh as [Hp Hh]. apply andb_prop in Hh as [Hq Hh].
    destruct (isHexCharacter_value p Hp) as (a & Ea & Ha).
    destruct (isHexCharacter_value q Hq) as (b & Eb & Hb).
    destruct (IH rest He Hh) as (H1 & H2 & H3).
    simpl hexDecode. rewrite Ea, Eb. destruct (hexDecode rest) as [out err].
    simpl in *. repeat split; [exact H1 | lia |]. constructor; [|exact H3].
    apply inrange_spec. lia.
Qed.

Lemma FromHex_hex_address (x : gostring) :
  IsHexAddress x = true ->
  length (FromHex x) = 20%nat /\ Forall is_byte (FromHex x) /\ HexToAddress x = FromHex x.
Proof.
  unfold IsHexAddress, HexToAddress, FromHex.
  set (y := if has0xPrefix x then skipn 2 x else x).
  intros H. apply andb_prop in H as [Hl Hh]. apply Nat.eqb_eq in Hl.
  unfold isHex in Hh. apply andb_prop in Hh as [He Hh].
  rewrite Hl. simpl Nat.odd. cbv iota. unfold Hex2Bytes.
  destruct (hexDecode_hex y He Hh) as (_ & H2 & H3).
  assert (Hl20 : length (fst (hexDecode y)) = 20%nat) by (rewrite Hl in H2; simpl in H2; lia).
  repeat split; [exact Hl20 | exact H3 |]. apply BytesToAddress_20. exact Hl20.
Qed.

Lemma HexToAddress_props (x : gostring) :
  IsHexAddress x = true -> length (HexToAddress x) = 20%nat /\ Forall is_byte (HexToAddress x).
Proof.
  intros H. destruct (FromHex_hex_address x H) as (H1 & H2 & ->). auto.
Qed.

(** every character of an accepted hex address is a hex digit, 'x' or 'X' *)
Lemma IsHexAddress_chars (x : gostring) :
  IsHexAddress x = true -> forallb hexaddr_char x = true.
Proof.
  unfold IsHexAddress, isHex. intros H. apply andb_prop in H as [_ H].
  apply andb_prop in H as [_ H].
  assert (Hw : forall l, forallb isHexCharacter l = true -> forallb hexaddr_char l = true).
  { induction l as [|c l IHl]; [reflexivity|]. simpl. intros Hc.
    apply andb_prop in Hc as [Hc Hl]. rewrite IHl by exact Hl. unfold hexaddr_char.
    rewrite Hc. reflexivity. }
  destruct (has0xPrefix x) eqn:E.
  - destruct x as [|c0 [|c1 r]]; try discriminate E. simpl in E |- *.
    apply andb_prop in E as [E0 E1]. apply Ascii.eqb_eq in E0. subst c0.
    change (hexaddr_char "0" && (hexaddr_char c1 && forallb hexaddr_char r) = true).
    rewrite (Hw r H), andb_true_r. unfold hexaddr_char.
    apply orb_prop in E1 as [E1|E1]; rewrite E1; rewrite ?orb_true_r; reflexivity.
  - apply Hw, H.
Qed.

Lemma HasPrefix_app (pre r : gostring) : HasPrefix (pre ++ r) pre = true.
Proof.
  induction pre as [|c pre IHp]; [destruct r; reflexivity|].
  simpl. rewrite Ascii.eqb_refl. exact IHp.
Qed.

Lemma HasPrefix_inv (x pre : gostring) : HasPrefix x pre = true -> exists r, x = pre ++ r.
Proof.
  revert x. induction pre as [|c pre IHp]; intros x H; [exists x; reflexivity|].
  destruct x as [|d x]; [discriminate H|]. simpl in H. apply andb_prop in H as [Hc H].
  apply Ascii.eqb_eq in Hc. subst d. destruct (IHp x H) as [r ->]. exists r. reflexivity.
Qed.

Lemma forallb_app_l {A} (f : A -> bool) (a b : list A) :
  forallb f (a ++ b) = true -> forallb f a = true.
Proof. rewrite forallb_app. intros H. apply andb_prop in H. apply H. Qed.

(** a string that starts with a prefix holding a non-hex character is not a
    hex address *)
Lemma prefixed_not_hex (pre x : gostring) :
  prefix_not_hex pre = true -> HasPrefix x pre = true -> IsHexAddress x = false.
Proof.
  intros Hp Hx. destruct (IsHexAddress x) eqn:E; [|reflexivity]. exfalso.
  apply IsHexAddress_chars in E. destruct (HasPrefix_inv x pre Hx) as [r ->].
  apply forallb_app_l in E. unfold prefix_not_hex in Hp.
  apply existsb_exists in Hp as (c & Hin & Hc). rewrite forallb_forall in E.
  rewrite (E c Hin) in Hc. discriminate Hc.
Qed.

Lemma AccAddressString_prefixed (pre : gostring) (b : list Z) :
  length b = 20%nat -> Forall is_byte b -> HasPrefix (AccAddressString pre b) pre = true.
Proof.
  intros Hl Hb. destruct (AccAddressString_encoded pre b Hl Hb) as (G & -> & _).
  unfold encoded. apply HasPrefix_app.
Qed.

(** a failed [AccAddressFromBech32] yields the empty address *)
Lemma AccAddressFromBech32_error (pre x : gostring) :
  snd (AccAddressFromBech32 pre x) <> None -> fst (AccAddressFromBech32 pre x) = [].
Proof.
  unfold AccAddressFromBech32. destruct (TrimSpaceEmpty x); [reflexivity|].
  destruct (GetFromBech32 x pre) as [bz [e|]]; [reflexivity|].
  destruct (VerifyAddressFormat bz); [reflexivity|]. simpl. congruence.
Qed.

Lemma AddressString_zero : AddressString (repeat 0 20) = s "0x0000000000000000000000000000000000000000".
Proof. vm_compute. reflexivity. Qed.

Lemma has0xPrefix_spec (x : gostring) :
  has0xPrefix x = true <->
  exists r, x = "0"%char :: "x"%char :: r \/ x = "0"%char :: "X"%char :: r.
Proof.
  split.
  - destruct x as [|c0 [|c1 r]]; simpl; try discriminate.
    intros H. apply andb_prop in H as [H0 H1]. apply Ascii.eqb_eq in H0. subst c0.
    exists r. apply orb_prop in H1 as [H1|H1]; apply Ascii.eqb_eq in H1; subst c1; auto.
  - intros (r & [-> | ->]); reflexivity.
Qed.

Lemma IsHexAddress_0x (c1 : ascii) (r : gostring) :
  c1 = "x"%char \/ c1 = "X"%char ->
  IsHexAddress ("0"%char :: c1 :: r) = (Nat.eqb (length r) 40 && forallb isHexCharacter r).
Proof.
  intros [-> | ->]; unfold IsHexAddress, isHex; simpl has0xPrefix; cbv iota; simpl skipn;
    change (2 * AddressLength)%nat with 40%nat;
    destruct (Nat.eqb (length r) 40) eqn:E; try reflexivity;
    apply Nat.eqb_eq in E; rewrite E; reflexivity.
Qed.

Lemma IsHexAddress_bare (x : gostring) :
  has0xPrefix x = false ->
  IsHexAddress x = (Nat.eqb (length x) 40 && forallb isHexCharacter x).
Proof.
  intros H. unfold IsHexAddress, isHex. rewrite H. change (2 * AddressLength)%nat with 40%nat.
  destruct (Nat.eqb (length x) 40) eqn:E; try reflexivity.
  apply Nat.eqb_eq in E. rewrite E. reflexivity.
Qed.

(* ------------------------------------------------------------------ *)
(** ** The claims *)

(** C1: a string with the account prefix whose bech32 decoding fails does
    not make [ConvertAddress] return the decode error. Here the checksum of
    a well-formed address is corrupted: [AccAddressFromBech32] reports
    [ErrInvalidChecksum], and [ConvertAddress] discards it and returns the
    zero address with a nil error. *)
Theorem C1_decode_error_discarded :
  let pre := s "secret" in
  let x := s "secret1zg69v7yszg69v7yszg69v7yszg69v7ysh74raq" in
  HasPrefix x pre = true /\ IsHexAddress x = false /\
  AccAddressFromBech32 pre x = ([], Some ErrInvalidChecksum) /\
  ConvertAddress pre x = (s "0x0000000000000000000000000000000000000000", None).
Proof.
  cbv zeta. split; [|split; [|split]]; vm_compute; reflexivity.
Qed.

(** C2: every input that starts with the account prefix gets a nil error
    (the decode error is dropped); the error result is non-nil exactly
    when the input is neither a hex address nor prefixed, and then it is
    the "expected a valid hex or bech32 address" error. *)
Theorem C2_only_format_error (pre x : gostring) :
  (HasPrefix x pre = true -> snd (ConvertAddress pre x) = None) /\
  (snd (ConvertAddress pre x) <> None <-> IsHexAddress x = false /\ HasPrefix x pre = false) /\
  (forall e, snd (ConvertAddress pre x) = Some e ->
             e = Errorf (s "expected a valid hex or bech32 address")).
Proof.
  unfold ConvertAddress.
  destruct (IsHexAddress x), (HasPrefix x pre), (AccAddressFromBech32 pre x);
    simpl; repeat split; intros; try congruence;
    repeat match goal with H : _ /\ _ |- _ => destruct H end; try congruence.
Qed.

(** C3: when the prefix holds a character no hex address has (as every
    network prefix does), an input with the prefix that fails bech32
    decoding has an empty payload, and [ConvertAddress] returns the zero
    address "0x0000000000000000000000000000000000000000" with a nil error. *)
Theorem C3_decode_failure_zero (pre x : gostring) :
  prefix_not_hex pre = true -> HasPrefix x pre = true ->
  snd (AccAddressFromBech32 pre x) <> None ->
  fst (AccAddressFromBech32 pre x) = [] /\
  ConvertAddress pre x = (s "0x0000000000000000000000000000000000000000", None).
Proof.
  intros Hp Hx He. pose proof (AccAddressFromBech32_error pre x He) as Hn.
  split; [exact Hn|]. unfold ConvertAddress.
  rewrite (prefixed_not_hex pre x Hp Hx), Hx.
  destruct (AccAddressFromBech32 pre x) as [b e]. simpl in Hn. subst b.
  exact (f_equal (fun a => (a, None)) AddressString_zero).
Qed.

(** C4 (amended): for a 20-byte payload [p], its bech32 string [xb] under
    the network prefix and its EIP-55 hex string [xh] are mapped to each
    other, so converting either twice gives it back; any other accepted hex
    spelling [x] (lower or upper case, with or without "0x") comes back as
    the EIP-55 string of the same payload, not as [x]. *)
Theorem C4_double_conversion (pre : gostring) (p : list Z) :
  valid_prefix pre = true -> prefix_not_hex pre = true ->
  length p = 20%nat -> Forall is_byte p ->
  ConvertAddress pre (AccAddressString pre p) = (AddressString p, None) /\
  ConvertAddress pre (AddressString p) = (AccAddressString pre p, None) /\
  ConvertAddress pre (fst (ConvertAddress pre (AccAddressString pre p))) =
    (AccAddressString pre p, None) /\
  ConvertAddress pre (fst (ConvertAddress pre (AddressString p))) = (AddressString p, None) /\
  (forall x, IsHexAddress x = true ->
     ConvertAddress pre (fst (ConvertAddress pre x)) = (AddressString (HexToAddress x), None)).
Proof.
  intros Hv Hn Hl Hp.
  assert (Hb : forall q, length q = 20%nat -> Forall is_byte q ->
            ConvertAddress pre (AccAddressString pre q) = (AddressString q, None)).
  { intros q Hql Hqb. unfold ConvertAddress.
    pose proof (AccAddressString_prefixed pre q Hql Hqb) as Hpre.
    rewrite (prefixed_not_hex pre _ Hn Hpre), Hpre, bech32_roundtrip by assumption.
    rewrite BytesToAddress_20 by exact Hql. reflexivity. }
  assert (Hh : ConvertAddress pre (AddressString p) = (AccAddressString pre p, None)).
  { unfold ConvertAddress, AddressString.
    rewrite IsHexAddress_checksumHex, HexToAddress_checksumHex by assumption. reflexivity. }
  split; [exact (Hb p Hl Hp)|]. split; [exact Hh|].
  split; [rewrite (Hb p Hl Hp); exact Hh|].
  split; [rewrite Hh; exact (Hb p Hl Hp)|].
  intros x Hx. destruct (HexToAddress_props x Hx) as [Hxl Hxb].
  unfold ConvertAddress at 2. rewrite Hx. exact (Hb _ Hxl Hxb).
Qed.

(** C5 (amended): when the input takes the bech32 branch and decodes to a
    20-byte payload [p], the result is [p]'s EIP-55 checksummed hex string:
    "0x" and 40 hex digits whose lower-case form is "0x" followed by the
    lower-case hex of [p]; letters are upper-cased by the checksum, so the
    result is in general not all lower case. *)
Theorem C5_checksummed_hex (pre x : gostring) (p : list Z) :
  IsHexAddress x = false -> HasPrefix x pre = true ->
  AccAddressFromBech32 pre x = (p, None) -> length p = 20%nat ->
  ConvertAddress pre x = (AddressString p, None) /\
  IsHexAddress (AddressString p) = true /\ length (AddressString p) = 42%nat /\
  ToLower (AddressString p) = hexBuf p.
Proof.
  intros Hx Hpre Hd Hl. unfold ConvertAddress. rewrite Hx, Hpre, Hd.
  rewrite BytesToAddress_20 by exact Hl. unfold AddressString.
  split; [reflexivity|]. split; [apply IsHexAddress_checksumHex; exact Hl|].
  split; [rewrite length_checksumHex, Hl; reflexivity|]. apply ToLower_checksumHex.
Qed.

(** C6 (amended): [IsHexAddress], the test that sends an input to the
    hex-to-bech32 branch, accepts exactly 40 hex digits (either case), bare
    or after "0x" or "0X"; an accepted input takes the hex branch and any
    other input takes the prefix test or the default. *)
Theorem C6_hex_classification (pre x : gostring) :
  (IsHexAddress x = true <-> hex_form x) /\
  (IsHexAddress x = true -> ConvertAddress pre x = (AccAddressString pre (HexToAddress x), None)) /\
  (IsHexAddress x = false -> ConvertAddress pre x =
     if HasPrefix x pre
     then (AddressString (BytesToAddress (fst (AccAddressFromBech32 pre x))), None)
     else ([], Some (Errorf (s "expected a valid hex or bech32 address")))).
Proof.
  split; [|split].
  - unfold hex_form. split.
    + intros H. destruct (has0xPrefix x) eqn:E.
      * apply has0xPrefix_spec in E as (r & Hr). right. exists r. split; [exact Hr|].
        assert (Hc : IsHexAddress x = (Nat.eqb (length r) 40 && forallb isHexCharacter r))
          by (destruct Hr as [-> | ->]; apply IsHexAddress_0x; auto).
        rewrite Hc in H. apply andb_prop in H as [H1 H2]. apply Nat.eqb_eq in H1. auto.
      * left. rewrite IsHexAddress_bare in H by exact E.
        apply andb_prop in H as [H1 H2]. apply Nat.eqb_eq in H1. auto.
    + intros [[Hl Hh] | (r & Hr & Hl & Hh)].
      * destruct (has0xPrefix x) eqn:E.
        -- exfalso. apply has0xPrefix_spec in E as (r & [-> | ->]); discriminate Hh.
        -- rewrite IsHexAddress_bare by exact E. rewrite Hl, Hh. reflexivity.
      * destruct Hr as [-> | ->]; rewrite IsHexAddress_0x by auto; rewrite Hl, Hh; reflexivity.
  - intros H. unfold ConvertAddress. rewrite H. reflexivity.
  - intros H. unfold ConvertAddress. rewrite H.
    destruct (HasPrefix x pre); [|reflexivity]. destruct (AccAddressFromBech32 pre x). reflexivity.
Qed.

(** C7 (amended): an input that [IsHexAddress] rejects and that does not
    start with the account prefix yields the empty string and the error
    "expected a valid hex or bech32 address". *)
Theorem C7_rejection (pre x : gostring) :
  IsHexAddress x = false -> HasPrefix x pre = false ->
  ConvertAddress pre x = ([], Some (Errorf (s "expected a valid hex or bech32 address"))).
Proof. intros H1 H2. unfold ConvertAddress. rewrite H1, H2. reflexivity. Qed.

(** C8: a hex address is decoded to its 20-byte payload ([HexToAddress] is
    then [FromHex]) and converted, with a nil error, to the bech32 string of
    that payload under the prefix, which [AccAddressFromBech32] decodes back
    to the same payload. *)
Theorem C8_hex_to_bech32 (pre x : gostring) :
  valid_prefix pre = true -> IsHexAddress x = true ->
  ConvertAddress pre x = (AccAddressString pre (HexToAddress x), None) /\
  HexToAddress x = FromHex x /\ length (HexToAddress x) = 20%nat /\
  AccAddressFromBech32 pre (fst (ConvertAddress pre x)) = (HexToAddress x, None).
Proof.
  intros Hv Hx. destruct (FromHex_hex_address x Hx) as (Hl & Hb & He).
  assert (Hc : ConvertAddress pre x = (AccAddressString pre (HexToAddress x), None))
    by (unfold ConvertAddress; rewrite Hx; reflexivity).
  rewrite Hc, He. repeat split; [exact Hl|]. apply bech32_roundtrip; assumption.
Qed.

(** C9: an input of the form "0x" and 40 hex digits is a hex address and
    takes the hex branch, whatever the prefix, also when it starts with
    the prefix: the hex test comes first. *)
Theorem C9_hex_first (pre x : gostring) :
  strict_hex x = true ->
  IsHexAddress x = true /\ ConvertAddress pre x = (AccAddressString pre (HexToAddress x), None).
Proof.
  intros H. assert (Hx : IsHexAddress x = true).
  { destruct x as [|c0 [|c1 r]]; try discriminate H. simpl in H.
    apply andb_prop in H as [H H3]. apply andb_prop in H as [H H2].
    apply andb_prop in H as [H0 H1]. apply Ascii.eqb_eq in H0, H1. subst c0 c1.
    rewrite IsHexAddress_0x by auto. rewrite H2, H3. reflexivity. }
  split; [exact Hx|]. unfold ConvertAddress. rewrite Hx. reflexivity.
Qed.

(** ** Witnesses and counterexamples *)

Lemma C2_witness :
  HasPrefix (s "secret1") (s "secret") = true /\
  snd (ConvertAddress (s "secret") (s "secret1")) = None /\
  snd (ConvertAddress (s "secret") (s "cosmos1abc")) <> None.
Proof.
  split; [vm_compute; reflexivity|]. split.
  - apply (proj1 (C2_only_format_error (s "secret") (s "secret1"))). vm_compute. reflexivity.
  - apply (proj2 (proj1 (proj2 (C2_only_format_error (s "secret") (s "cosmos1abc"))))).
    split; vm_compute; reflexivity.
Defined.

Lemma C3_witness :
  prefix_not_hex (s "secret") = true /\ HasPrefix (s "secret1") (s "secret") = true /\
  snd (AccAddressFromBech32 (s "secret") (s "secret1")) <> None /\
  fst (AccAddressFromBech32 (s "secret") (s "secret1")) = [] /\
  ConvertAddress (s "secret") (s "secret1") =
    (s "0x0000000000000000000000000000000000000000", None).
Proof.
  assert (H1 : prefix_not_hex (s "secret") = true) by (vm_compute; reflexivity).
  assert (H2 : HasPrefix (s "secret1") (s "secret") = true) by (vm_compute; reflexivity).
  assert (H3 : snd (AccAddressFromBech32 (s "secret") (s "secret1")) <> None)
    by (vm_compute; discriminate).
  split; [exact H1|]. split; [exact H2|]. split; [exact H3|].
  exact (C3_decode_failure_zero (s "secret") (s "secret1") H1 H2 H3).
Defined.

Lemma C4_witness :
  let pre := s "secret" in
  let p := map Z.of_nat (seq 1 20) in
  (valid_prefix pre = true /\ prefix_not_hex pre = true /\
   length p = 20%nat /\ Forall is_byte p) /\
  ConvertAddress pre (fst (ConvertAddress pre (AccAddressString pre p))) =
    (AccAddressString pre p, None).
Proof.
  cbv zeta.
  assert (H1 : valid_prefix (s "secret") = true) by (vm_compute; reflexivity).
  assert (H2 : prefix_not_hex (s "secret") = true) by (vm_compute; reflexivity).
  assert (H3 : length (map Z.of_nat (seq 1 20)) = 20%nat) by (vm_compute; reflexivity).
  assert (H4 : Forall is_byte (map Z.of_nat (seq 1 20))) by (vm_compute; repeat constructor).
  split; [auto|].
  exact (proj1 (proj2 (proj2 (C4_double_conversion _ _ H1 H2 H3 H4)))).
Defined.

Lemma C4_lowercase_hex_not_fixed :
  let pre := s "secret" in
  let x := s "0x5aaeb6053f3e94c9b9a09f33669435e7ef1beaed" in
  IsHexAddress x = true /\
  ConvertAddress pre (fst (ConvertAddress pre x)) =
    (s "0x5aAeb6053F3E94C9b9A09f33669435E7Ef1BeAed", None) /\
  s "0x5aAeb6053F3E94C9b9A09f33669435E7Ef1BeAed" <> x.
Proof.
  cbv zeta. split; [vm_compute; reflexivity|]. split; [vm_compute; reflexivity|].
  vm_compute. discriminate.
Qed.

Lemma C5_witness :
  let pre := s "secret" in
  let x := s "secret1t2htvpfl862vnwdqnuekd9p4ulh3h6hd4j2wup" in
  let p := HexToAddress (s "0x5aaeb6053f3e94c9b9a09f33669435e7ef1beaed") in
  (IsHexAddress x = false /\ HasPrefix x pre = true /\
   AccAddressFromBech32 pre x = (p, None) /\ length p = 20%nat) /\
  ConvertAddress pre x = (AddressString p, None).
Proof.
  cbv zeta.
  assert (H1 : IsHexAddress (s "secret1t2htvpfl862vnwdqnuekd9p4ulh3h6hd4j2wup") = false)
    by (vm_compute; reflexivity).
  assert (H2 : HasPrefix (s "secret1t2htvpfl862vnwdqnuekd9p4ulh3h6hd4j2wup") (s "secret") = true)
    by (vm_compute; reflexivity).
  assert (H3 : AccAddressFromBech32 (s "secret") (s "secret1t2htvpfl862vnwdqnuekd9p4ulh3h6hd4j2wup")
               = (HexToAddress (s "0x5aaeb6053f3e94c9b9a09f33669435e7ef1beaed"), None))
    by (vm_compute; reflexivity).
  assert (H4 : length (HexToAddress (s "0x5aaeb6053f3e94c9b9a09f33669435e7ef1beaed")) = 20%nat)
    by (vm_compute; reflexivity).
  split; [auto|]. exact (proj1 (C5_checksummed_hex _ _ _ H1 H2 H3 H4)).
Defined.

Lemma C5_output_mixed_case :
  let pre := s "secret" in
  let x := s "secret1t2htvpfl862vnwdqnuekd9p4ulh3h6hd4j2wup" in
  AccAddressFromBech32 pre x =
    (HexToAddress (s "0x5aaeb6053f3e94c9b9a09f33669435e7ef1beaed"), None) /\
  ConvertAddress pre x = (s "0x5aAeb6053F3E94C9b9A09f33669435E7Ef1BeAed", None) /\
  existsb isUpperAscii (fst (ConvertAddress pre x)) = true.
Proof.
  cbv zeta. split; [|split]; vm_compute; reflexivity.
Qed.

Lemma C6_bare_hex_accepted :
  let x := s "0000000000000000000000000000000000000000" in
  IsHexAddress x = true /\ strict_hex x = false /\
  ConvertAddress (s "secret") x = (s "secret1qqqqqqqqqqqqqqqqqqqqqqqqqqqqqqqq3x5k6p", None).
Proof.
  cbv zeta. split; [|split]; vm_compute; reflexivity.
Qed.

Lemma C7_witness :
  (IsHexAddress (s "cosmos1abc") = false /\ HasPrefix (s "cosmos1abc") (s "secret") = false) /\
  ConvertAddress (s "secret") (s "cosmos1abc") =
    ([], Some (Errorf (s "expected a valid hex or bech32 address"))).
Proof.
  assert (H1 : IsHexAddress (s "cosmos1abc") = false) by (vm_compute; reflexivity).
  assert (H2 : HasPrefix (s "cosmos1abc") (s "secret") = false) by (vm_compute; reflexivity).
  split; [auto|]. exact (C7_rejection _ _ H1 H2).
Defined.

Lemma C7_bare_hex_not_rejected :
  let x := s "0000000000000000000000000000000000000000" in
  strict_hex x = false /\ HasPrefix x (s "secret") = false /\
  snd (ConvertAddress (s "secret") x) = None.
Proof.
  cbv zeta. split; [|split]; vm_compute; reflexivity.
Qed.

Lemma C8_witness :
  let pre := s "secret" in
  let x := s "0x5aAeb6053F3E94C9b9A09f33669435E7Ef1BeAed" in
  (valid_prefix pre = true /\ IsHexAddress x = true) /\
  AccAddressFromBech32 pre (fst (ConvertAddress pre x)) = (HexToAddress x, None).
Proof.
  cbv zeta.
  assert (H1 : valid_prefix (s "secret") = true) by (vm_compute; reflexivity).
  assert (H2 : IsHexAddress (s "0x5aAeb6053F3E94C9b9A09f33669435E7Ef1BeAed") = true)
    by (vm_compute; reflexivity).
  split; [auto|]. exact (proj2 (proj2 (proj2 (C8_hex_to_bech32 _ _ H1 H2)))).
Defined.

Lemma C9_witness :
  let pre := s "0x" in
  let x := s "0x0000000000000000000000000000000000000000" in
  (strict_hex x = true /\ HasPrefix x pre = true) /\
  ConvertAddress pre x = (AccAddressString pre (HexToAddress x), None).
Proof.
  cbv zeta.
  assert (H1 : strict_hex (s "0x0000000000000000000000000000000000000000") = true)
    by (vm_compute; reflexivity).
  assert (H2 : HasPrefix (s "0x0000000000000000000000000000000000000000") (s "0x") = true)
    by (vm_compute; reflexivity).
  split; [auto|]. exact (proj2 (C9_hex_first _ _ H1)).
Defined.

(* ------------------------------------------------------------------ *)
(** ** Proofs: case mapping, byte ranges and the two output shapes *)

(** [strings.ToLower] and [strings.ToUpper] change no hex digit's value,
    no hex/non-hex classification and no part of the "0x"/"0X" prefix;
    [ToUpper] moves every lower-case letter. Checked on all 256 bytes. *)
Lemma ascii_case_props (c : ascii) :
  let lo := if isUpperAscii c then chr (ord c + 32) else c in
  let up := if isLowerAscii c then chr (ord c - 32) else c in
  isHexCharacter lo = isHexCharacter c /\ fromHexChar lo = fromHexChar c /\
  Ascii.eqb lo "0" = Ascii.eqb c "0" /\
  (Ascii.eqb lo "x" || Ascii.eqb lo "X") = (Ascii.eqb c "x" || Ascii.eqb c "X") /\
  isHexCharacter up = isHexCharacter c /\ fromHexChar up = fromHexChar c /\
  Ascii.eqb up "0" = Ascii.eqb c "0" /\
  (Ascii.eqb up "x" || Ascii.eqb up "X") = (Ascii.eqb c "x" || Ascii.eqb c "X") /\
  (isLowerAscii c = true -> Ascii.eqb c up = false).
Proof.
  destruct c as [[] [] [] [] [] [] [] []]; vm_compute;
    repeat split; intros; first [reflexivity | discriminate].
Qed.

Section CaseMap.

(** a byte-wise map that, like [ToLower] and [ToUpper], keeps every hex
    digit's value, the hex classification and the "0x" prefix test *)
Variable f : ascii -> ascii.
Hypothesis f_hex : forall c, isHexCharacter (f c) = isHexCharacter c.
Hypothesis f_val : forall c, fromHexChar (f c) = fromHexChar c.
Hypothesis f_0 : forall c, Ascii.eqb (f c) "0" = Ascii.eqb c "0".
Hypothesis f_x : forall c, (Ascii.eqb (f c) "x" || Ascii.eqb (f c) "X")
                           = (Ascii.eqb c "x" || Ascii.eqb c "X").

Lemma f_zero : f "0"%char = "0"%char.
Proof. apply Ascii.eqb_eq. rewrite f_0. reflexivity. Qed.

Lemma has0xPrefix_map (x : gostring) : has0xPrefix (map f x) = has0xPrefix x.
Proof. destruct x as [|c0 [|c1 r]]; simpl; try reflexivity. rewrite f_0, f_x. reflexivity. Qed.

Lemma stripped_map (x : gostring) :
  (if has0xPrefix (map f x) then skipn 2 (map f x) else map f x) =
  map f (if has0xPrefix x then skipn 2 x else x).
Proof.
  rewrite has0xPrefix_map. destruct (has0xPrefix x); [|reflexivity].
  destruct x as [|c0 [|c1 r]]; reflexivity.
Qed.

Lemma forallb_hex_map (l : gostring) :
  forallb isHexCharacter (map f l) = forallb isHexCharacter l.
Proof. induction l as [|c l IH]; simpl; [reflexivity|]. rewrite f_hex, IH. reflexivity. Qed.

Lemma IsHexAddress_map (x : gostring) : IsHexAddress (map f x) = IsHexAddress x.
Proof.
  unfold IsHexAddress, isHex. rewrite stripped_map.
  set (y := if has0xPrefix x then skipn 2 x else x).
  rewrite length_map, forallb_hex_map. reflexivity.
Qed.

Lemma hexDecode_map : forall l : gostring, fst (hexDecode (map f l)) = fst (hexDecode l).
Proof.
  fix IH 1. intros [|p [|q rest]].
  - reflexivity.
  - simpl. rewrite f_val. destruct (fromHexChar p); reflexivity.
  - simpl map. simpl hexDecode. rewrite !f_val.
    destruct (fromHexChar p); [|reflexivity]. destruct (fromHexChar q); [|reflexivity].
    specialize (IH rest).
    destruct (hexDecode (map f rest)) as [o1 e1], (hexDecode rest) as [o2 e2].
    simpl in IH |- *. rewrite IH. reflexivity.
Qed.

Lemma HexToAddress_map (x : gostring) : HexToAddress (map f x) = HexToAddress x.
Proof.
  unfold HexToAddress, FromHex, Hex2Bytes. rewrite stripped_map.
  set (y := if has0xPrefix x then skipn 2 x else x). rewrite length_map.
  destruct (Nat.odd (length y)).
  - replace ("0"%char :: map f y) with (map f ("0"%char :: y))
      by (simpl; rewrite f_zero; reflexivity).
    rewrite hexDecode_map. reflexivity.
  - rewrite hexDecode_map. reflexivity.
Qed.

End CaseMap.

Lemma ToLower_hex_invariant (x : gostring) :
  IsHexAddress (ToLower x) = IsHexAddress x /\ HexToAddress (ToLower x) = HexToAddress x.
Proof.
  unfold ToLower. split; [apply IsHexAddress_map | apply HexToAddress_map];
    intros c; apply (ascii_case_props c).
Qed.

Lemma ToUpper_hex_invariant (x : gostring) :
  IsHexAddress (ToUpper x) = IsHexAddress x /\ HexToAddress (ToUpper x) = HexToAddress x.
Proof.
  unfold ToUpper. split; [apply IsHexAddress_map | apply HexToAddress_map];
    intros c; apply (ascii_case_props c).
Qed.

Lemma is_byte_land255 (v : Z) : is_byte (Z.land v 255).
Proof. apply inrange_spec. apply land255_range. Qed.

Lemma cb_step_bytes (t : Z) (st : Z * Z * Z * Z * list Z) :
  Forall is_byte (snd st) -> Forall is_byte (snd (Bech32.cb_step t st)).
Proof.
  destruct st as [[[[b r] n] fb] g]. simpl. intros H. unfold Bech32.cb_step.
  destruct (_ =? t); simpl; [|exact H].
  apply Forall_app. split; [exact H|]. constructor; [apply is_byte_land255|constructor].
Qed.

Lemma cb_inner_bytes (fuel : nat) (t : Z) : forall st,
  Forall is_byte (snd st) -> Forall is_byte (snd (Bech32.cb_inner fuel t st)).
Proof.
  induction fuel as [|fuel IH]; intros st H; [exact H|].
  destruct st as [[[[b r] n] fb] g]. cbn [Bech32.cb_inner].
  destruct (0 <? r); [|exact H]. apply IH, cb_step_bytes, H.
Qed.

Lemma fold_cb_bytes (fromBits toBits : Z) (data : list Z) : forall acc,
  Forall is_byte (snd acc) ->
  Forall is_byte (snd (fold_left (Bech32.cb_byte fromBits toBits) data acc)).
Proof.
  induction data as [|b data IH]; intros acc H; [exact H|]. simpl. apply IH.
  destruct acc as [[n fb] g]. unfold Bech32.cb_byte.
  pose proof (cb_inner_bytes 8 toBits
                (Z.land (Z.shiftl b (8 - fromBits)) 255, fromBits, n, fb, g) H) as H'.
  destruct (Bech32.cb_inner 8 toBits _) as [[[[? ?] ?] ?] ?]. exact H'.
Qed.

(** every group [ConvertBits] emits is a byte *)
Lemma ConvertBits_bytes (data : list Z) (fromBits toBits : Z) (pad : bool) :
  Forall is_byte (fst (Bech32.ConvertBits data fromBits toBits pad)).
Proof.
  unfold Bech32.ConvertBits.
  destruct (_ || _ || _ || _); [constructor|].
  pose proof (fold_cb_bytes fromBits toBits data (0, 0, []) (Forall_nil _)) as H.
  destruct (fold_left _ data _) as [[n fb] g]. simpl in H.
  assert (H2 : Forall is_byte
     (snd (if pad && (0 <? fb) then (0, 0, g ++ [Z.land (Z.shiftl n (toBits - fb)) 255])
           else (n, fb, g)))).
  { destruct (pad && (0 <? fb)); simpl; [|exact H].
    apply Forall_app. split; [exact H|]. constructor; [apply is_byte_land255|constructor]. }
  destruct (if pad && (0 <? fb) then _ else _) as [[n' fb'] g'].
  destruct (_ && _); simpl; [constructor|exact H2].
Qed.

(** the payload [AccAddressFromBech32] returns is made of bytes *)
Lemma AccAddressFromBech32_bytes (pre x : gostring) :
  Forall is_byte (fst (AccAddressFromBech32 pre x)).
Proof.
  unfold AccAddressFromBech32. destruct (TrimSpaceEmpty x); [constructor|].
  assert (H : Forall is_byte (fst (GetFromBech32 x pre))).
  { unfold GetFromBech32. destruct x as [|c r]; [constructor|].
    unfold DecodeAndConvert. destruct (Bech32.Decode _ _) as [[hrp data] [e|]]; [constructor|].
    pose proof (ConvertBits_bytes data 5 8 false) as Hc.
    destruct (Bech32.ConvertBits data 5 8 false) as [conv [e|]]; [constructor|].
    destruct (negb _); [constructor|exact Hc]. }
  destruct (GetFromBech32 x pre) as [bz [e|]]; [constructor|].
  destruct (VerifyAddressFormat bz); [constructor|exact H].
Qed.

Lemma Forall_skipn {A} (P : A -> Prop) (n : nat) : forall l, Forall P l -> Forall P (skipn n l).
Proof.
  induction n as [|n IH]; intros l H; [exact H|]. destruct l; [constructor|].
  inversion H; subst. apply IH. assumption.
Qed.

(** [BytesToAddress] always gives 20 bytes, and bytes stay bytes *)
Lemma BytesToAddress_props (b : list Z) :
  length (BytesToAddress b) = 20%nat /\ (Forall is_byte b -> Forall is_byte (BytesToAddress b)).
Proof.
  unfold BytesToAddress. change AddressLength with 20%nat. split.
  - destruct (Nat.ltb 20 (length b)) eqn:E.
    + apply Nat.ltb_lt in E. rewrite length_app, repeat_length, length_skipn. lia.
    + apply Nat.ltb_ge in E. rewrite length_app, repeat_length. lia.
  - intros H. apply Forall_app. split.
    + apply Forall_forall. intros v Hv. apply repeat_spec in Hv. subst v. reflexivity.
    + destruct (Nat.ltb 20 (length b)); [apply Forall_skipn|]; exact H.
Qed.

(** the bech32 string of a 20-byte payload converts to its hex string *)
Lemma convert_AccAddressString (pre : gostring) (q : list Z) :
  valid_prefix pre = true -> prefix_not_hex pre = true ->
  length q = 20%nat -> Forall is_byte q ->
  ConvertAddress pre (AccAddressString pre q) = (AddressString q, None).
Proof.
  intros Hv Hn Hql Hqb. unfold ConvertAddress.
  pose proof (AccAddressString_prefixed pre q Hql Hqb) as Hpre.
  rewrite (prefixed_not_hex pre _ Hn Hpre), Hpre, bech32_roundtrip by assumption.
  rewrite BytesToAddress_20 by exact Hql. reflexivity.
Qed.

(** the hex string of a 20-byte payload converts to its bech32 string *)
Lemma convert_AddressString (pre : gostring) (q : list Z) :
  length q = 20%nat -> Forall is_byte q ->
  ConvertAddress pre (AddressString q) = (AccAddressString pre q, None).
Proof.
  intros Hl Hb. unfold ConvertAddress, AddressString.
  rewrite IsHexAddress_checksumHex, HexToAddress_checksumHex by assumption. reflexivity.
Qed.

Lemma In_charOf (v : Z) : In (charOf v) Bech32.charset.
Proof.
  unfold charOf. destruct (Nat.lt_ge_cases (Z.to_nat v) (length Bech32.charset)).
  - apply nth_In. exact H.
  - rewrite nth_overflow by exact H. simpl. auto.
Qed.

Lemma HasPrefix_upper (pre r : gostring) :
  HasPrefix (ToUpper pre ++ r) pre = true -> existsb isLowerAscii pre = false.
Proof.
  induction pre as [|c pre IH]; [reflexivity|]. intros H.
  change (Ascii.eqb c (if isLowerAscii c then chr (ord c - 32) else c)
          && HasPrefix (ToUpper pre ++ r) pre = true) in H.
  apply andb_prop in H as [Hc H].
  change (isLowerAscii c || existsb isLowerAscii pre = false). rewrite (IH H), orb_false_r.
  destruct (ascii_case_props c) as (_ & _ & _ & _ & _ & _ & _ & _ & Hl).
  cbv zeta in Hl. destruct (isLowerAscii c) eqn:E; [|reflexivity].
  rewrite (Hl eq_refl) in Hc. discriminate Hc.
Qed.

Lemma ToUpper_app (a b : gostring) : ToUpper (a ++ b) = ToUpper a ++ ToUpper b.
Proof. unfold ToUpper. apply map_app. Qed.

Lemma length_encoded (hrp : gostring) (G : list Z) :
  length (encoded hrp G) = (length hrp + 1 + length G + 6)%nat.
Proof.
  unfold encoded. rewrite !length_app, length_map, length_app, length_checksum. simpl. lia.
Qed.

(* ------------------------------------------------------------------ *)
(** ** Further properties of [ConvertAddress] and its collaborators *)

(** X1: [AccAddress.String()] of a 20-byte payload starts with the prefix,
    and [AccAddressFromBech32] decodes it back to the payload. *)
Theorem X1_bech32_roundtrip (pre : gostring) (p : list Z) :
  valid_prefix pre = true -> length p = 20%nat -> Forall is_byte p ->
  HasPrefix (AccAddressString pre p) pre = true /\
  AccAddressFromBech32 pre (AccAddressString pre p) = (p, None).
Proof.
  intros Hv Hl Hp. split; [apply AccAddressString_prefixed; assumption|].
  apply bech32_roundtrip; assumption.
Qed.

(** X2: [Address.String()] of a 20-byte payload is 42 characters long, is
    accepted by [IsHexAddress], and [HexToAddress] reads the payload back. *)
Theorem X2_hex_roundtrip (p : list Z) :
  length p = 20%nat -> Forall is_byte p ->
  length (AddressString p) = 42%nat /\ IsHexAddress (AddressString p) = true /\
  HexToAddress (AddressString p) = p.
Proof.
  intros Hl Hp. unfold AddressString. split; [rewrite length_checksumHex, Hl; reflexivity|].
  split; [apply IsHexAddress_checksumHex; exact Hl|]. apply HexToAddress_checksumHex; assumption.
Qed.

(** X3: the hex branch ignores letter case: lower-casing or upper-casing a
    hex address (including its "0x"/"0X" prefix) does not change what
    [ConvertAddress] returns. *)
Theorem X3_hex_case_insensitive (pre x : gostring) :
  IsHexAddress x = true ->
  ConvertAddress pre (ToLower x) = ConvertAddress pre x /\
  ConvertAddress pre (ToUpper x) = ConvertAddress pre x.
Proof.
  intros Hx. destruct (ToLower_hex_invariant x) as [L1 L2].
  destruct (ToUpper_hex_invariant x) as [U1 U2].
  unfold ConvertAddress. rewrite L1, L2, U1, U2, Hx. split; reflexivity.
Qed.

(** X4: on the bech32 branch the result is always the EIP-55 string of a
    20-byte address (the decoded payload cut or zero-padded to 20 bytes):
    42 characters, itself a valid hex address, with a nil error. *)
Theorem X4_bech32_branch_shape (pre x : gostring) :
  IsHexAddress x = false -> HasPrefix x pre = true ->
  ConvertAddress pre x = (AddressString (BytesToAddress (fst (AccAddressFromBech32 pre x))), None) /\
  length (BytesToAddress (fst (AccAddressFromBech32 pre x))) = 20%nat /\
  IsHexAddress (fst (ConvertAddress pre x)) = true /\
  length (fst (ConvertAddress pre x)) = 42%nat.
Proof.
  intros Hx Hp.
  assert (Hc : ConvertAddress pre x =
               (AddressString (BytesToAddress (fst (AccAddressFromBech32 pre x))), None)).
  { unfold ConvertAddress. rewrite Hx, Hp. destruct (AccAddressFromBech32 pre x). reflexivity. }
  destruct (BytesToAddress_props (fst (AccAddressFromBech32 pre x))) as [Hl _].
  rewrite Hc. simpl fst. unfold AddressString.
  split; [reflexivity|]. split; [exact Hl|].
  split; [apply IsHexAddress_checksumHex; exact Hl|]. rewrite length_checksumHex, Hl. reflexivity.
Qed.

(** X5: on the hex branch the result is the prefix, the separator '1' and
    38 characters of the bech32 alphabet (32 data characters and the
    6-character checksum), with a nil error. *)
Theorem X5_hex_branch_shape (pre x : gostring) :
  IsHexAddress x = true ->
  exists data, ConvertAddress pre x = (pre ++ ["1"%char] ++ data, None) /\
               length data = 38%nat /\ Forall (fun c => In c Bech32.charset) data.
Proof.
  intros Hx. destruct (HexToAddress_props x Hx) as [Hl Hb].
  destruct (AccAddressString_encoded pre (HexToAddress x) Hl Hb) as (G & HE & _ & HGl & _).
  exists (map charOf (G ++ Bech32.bech32Checksum pre G)).
  split; [unfold ConvertAddress; rewrite Hx, HE; reflexivity|].
  split; [rewrite length_map, length_app, HGl, length_checksum; reflexivity|].
  apply Forall_forall. intros c Hc. apply in_map_iff in Hc as (v & <- & _). apply In_charOf.
Qed.

(** X6: every successful result is a fixed point of converting twice:
    after one conversion the address is in canonical form (bech32 string
    or EIP-55 hex of a 20-byte payload), and converting it there and back
    returns it unchanged. *)
Theorem X6_result_fixed_point (pre x : gostring) :
  valid_prefix pre = true -> prefix_not_hex pre = true ->
  snd (ConvertAddress pre x) = None ->
  ConvertAddress pre (fst (ConvertAddress pre (fst (ConvertAddress pre x)))) =
    (fst (ConvertAddress pre x), None).
Proof.
  intros Hv Hn Hs. destruct (IsHexAddress x) eqn:Ex.
  - destruct (HexToAddress_props x Ex) as [Hl Hb].
    assert (Hc : ConvertAddress pre x = (AccAddressString pre (HexToAddress x), None))
      by (unfold ConvertAddress; rewrite Ex; reflexivity).
    rewrite Hc. cbn [fst]. rewrite convert_AccAddressString by assumption. cbn [fst].
    apply convert_AddressString; assumption.
  - destruct (HasPrefix x pre) eqn:Ep.
    + set (q := BytesToAddress (fst (AccAddressFromBech32 pre x))).
      assert (Hc : ConvertAddress pre x = (AddressString q, None)).
      { unfold ConvertAddress, q. rewrite Ex, Ep. destruct (AccAddressFromBech32 pre x).
        reflexivity. }
      destruct (BytesToAddress_props (fst (AccAddressFromBech32 pre x))) as [Hl Hb].
      specialize (Hb (AccAddressFromBech32_bytes pre x)). fold q in Hl, Hb.
      rewrite Hc. cbn [fst]. rewrite convert_AddressString by assumption. cbn [fst].
      apply convert_AccAddressString; assumption.
    + unfold ConvertAddress in Hs. rewrite Ex, Ep in Hs. discriminate Hs.
Qed.

(** X7: an address under a longer prefix that extends the network's (such
    as the validator prefix "secretvaloper" of "secret") starts with the
    account prefix, so it takes the bech32 branch; [AccAddressFromBech32]
    rejects its prefix, and [ConvertAddress] returns the zero address with
    a nil error. *)
Theorem X7_extended_prefix_zero (pre suf : gostring) (p : list Z) :
  valid_prefix (pre ++ suf) = true -> suf <> [] -> prefix_not_hex pre = true ->
  length p = 20%nat -> Forall is_byte p ->
  snd (AccAddressFromBech32 pre (AccAddressString (pre ++ suf) p)) <> None /\
  ConvertAddress pre (AccAddressString (pre ++ suf) p) =
    (s "0x0000000000000000000000000000000000000000", None).
Proof.
  intros Hv Hsuf Hn Hl Hp.
  destruct (AccAddressString_encoded (pre ++ suf) p Hl Hp) as (G & HE & HG & HGl & Hb).
  assert (Herr : snd (AccAddressFromBech32 pre (AccAddressString (pre ++ suf) p)) <> None).
  { rewrite HE. unfold AccAddressFromBech32. unfold encoded at 1.
    rewrite TrimSpaceEmpty_prefixed by exact Hv.
    assert (Hne : encoded (pre ++ suf) G <> []).
    { unfold encoded. intros H. apply (f_equal (@length ascii)) in H.
      rewrite !length_app in H. simpl in H. lia. }
    unfold GetFromBech32. destruct (encoded (pre ++ suf) G) as [|c rest] eqn:E; [congruence|].
    rewrite <- E. unfold DecodeAndConvert. rewrite Decode_encoded by assumption.
    rewrite (ConvertBits_5_8_20 G p) by assumption.
    destruct (gostr_eqb (pre ++ suf) pre) eqn:Eq.
    - apply gostr_eqb_true in Eq. apply (f_equal (@length ascii)) in Eq.
      rewrite length_app in Eq. destruct suf; [congruence|]. simpl in Eq. lia.
    - simpl. discriminate. }
  split; [exact Herr|].
  assert (Hpre : HasPrefix (AccAddressString (pre ++ suf) p) pre = true).
  { rewrite HE. unfold encoded. rewrite <- app_assoc. apply HasPrefix_app. }
  pose proof (AccAddressFromBech32_error _ _ Herr) as Hnil.
  unfold ConvertAddress. rewrite (prefixed_not_hex pre _ Hn Hpre), Hpre.
  destruct (AccAddressFromBech32 pre _) as [b e]. simpl in Hnil. subst b.
  exact (f_equal (fun a => (a, None)) AddressString_zero).
Qed.

(** X8: a bech32 account address written in upper case, which bech32
    allows, is refused with the format error: the prefix test is
    case-sensitive, and the upper-cased prefix is not a hex address. *)
Theorem X8_uppercase_bech32_rejected (pre : gostring) (p : list Z) :
  existsb isLowerAscii pre = true -> prefix_not_hex (ToUpper pre) = true ->
  length p = 20%nat -> Forall is_byte p ->
  ConvertAddress pre (ToUpper (AccAddressString pre p)) =
    ([], Some (Errorf (s "expected a valid hex or bech32 address"))).
Proof.
  intros Hlow Hnu Hl Hp.
  destruct (AccAddressString_encoded pre p Hl Hp) as (G & HE & _).
  rewrite HE. unfold encoded. rewrite ToUpper_app.
  set (r := ToUpper (["1"%char] ++ map charOf (G ++ Bech32.bech32Checksum pre G))).
  assert (Hp2 : HasPrefix (ToUpper pre ++ r) pre = false).
  { destruct (HasPrefix (ToUpper pre ++ r) pre) eqn:E; [|reflexivity].
    apply HasPrefix_upper in E. congruence. }
  unfold ConvertAddress.
  rewrite (prefixed_not_hex (ToUpper pre) _ Hnu (HasPrefix_app _ _)), Hp2. reflexivity.
Qed.

(** X9: under a non-empty prefix, the empty string is refused with the
    format error. *)
Theorem X9_empty_input (pre : gostring) :
  pre <> [] ->
  ConvertAddress pre [] = ([], Some (Errorf (s "expected a valid hex or bech32 address"))).
Proof. intros H. destruct pre as [|c pre]; [congruence|]. reflexivity. Qed.

(** ** Witnesses of the further properties *)

Lemma X1_witness :
  let pre := s "secret" in let p := map Z.of_nat (seq 1 20) in
  (valid_prefix pre = true /\ length p = 20%nat /\ Forall is_byte p) /\
  AccAddressFromBech32 pre (AccAddressString pre p) = (p, None).
Proof.
  cbv zeta.
  assert (H1 : valid_prefix (s "secret") = true) by (vm_compute; reflexivity).
  assert (H2 : length (map Z.of_nat (seq 1 20)) = 20%nat) by (vm_compute; reflexivity).
  assert (H3 : Forall is_byte (map Z.of_nat (seq 1 20))) by (vm_compute; repeat constructor).
  split; [auto|]. exact (proj2 (X1_bech32_roundtrip _ _ H1 H2 H3)).
Defined.

Lemma X2_witness :
  let p := map (fun n => Z.of_nat n * 12) (seq 0 20) in
  (length p = 20%nat /\ Forall is_byte p) /\ HexToAddress (AddressString p) = p.
Proof.
  cbv zeta.
  assert (H1 : length (map (fun n => Z.of_nat n * 12) (seq 0 20)) = 20%nat)
    by (vm_compute; reflexivity).
  assert (H2 : Forall is_byte (map (fun n => Z.of_nat n * 12) (seq 0 20)))
    by (vm_compute; repeat constructor).
  split; [auto|]. exact (proj2 (proj2 (X2_hex_roundtrip _ H1 H2))).
Defined.

Lemma X3_witness :
  let x := s "0X5AAEB6053F3E94C9B9A09F33669435E7EF1BEAED" in
  IsHexAddress x = true /\
  ConvertAddress (s "secret") (ToLower x) = ConvertAddress (s "secret") x.
Proof.
  cbv zeta.
  assert (H : IsHexAddress (s "0X5AAEB6053F3E94C9B9A09F33669435E7EF1BEAED") = true)
    by (vm_compute; reflexivity).
  split; [exact H|]. exact (proj1 (X3_hex_case_insensitive (s "secret") _ H)).
Defined.

Lemma X4_witness :
  let x := s "secret1" in
  (IsHexAddress x = false /\ HasPrefix x (s "secret") = true) /\
  length (fst (ConvertAddress (s "secret") x)) = 42%nat.
Proof.
  cbv zeta.
  assert (H1 : IsHexAddress (s "secret1") = false) by (vm_compute; reflexivity).
  assert (H2 : HasPrefix (s "secret1") (s "secret") = true) by (vm_compute; reflexivity).
  split; [auto|]. exact (proj2 (proj2 (proj2 (X4_bech32_branch_shape _ _ H1 H2)))).
Defined.

Lemma X5_witness :
  let x := s "0x1234567890123456789012345678901234567890" in
  IsHexAddress x = true /\
  exists data, ConvertAddress (s "secret") x = (s "secret" ++ ["1"%char] ++ data, None) /\
               length data = 38%nat /\ Forall (fun c => In c Bech32.charset) data.
Proof.
  cbv zeta.
  assert (H : IsHexAddress (s "0x1234567890123456789012345678901234567890") = true)
    by (vm_compute; reflexivity).
  split; [exact H|]. exact (X5_hex_branch_shape (s "secret") _ H).
Defined.

Lemma X6_witness :
  let pre := s "secret" in
  let x := s "0X5AAEB6053F3E94C9B9A09F33669435E7EF1BEAED" in
  (valid_prefix pre = true /\ prefix_not_hex pre = true /\ snd (ConvertAddress pre x) = None) /\
  ConvertAddress pre (fst (ConvertAddress pre (fst (ConvertAddress pre x)))) =
    (fst (ConvertAddress pre x), None).
Proof.
  cbv zeta.
  assert (H1 : valid_prefix (s "secret") = true) by (vm_compute; reflexivity).
  assert (H2 : prefix_not_hex (s "secret") = true) by (vm_compute; reflexivity).
  assert (H3 : snd (ConvertAddress (s "secret") (s "0X5AAEB6053F3E94C9B9A09F33669435E7EF1BEAED"))
               = None) by (vm_compute; reflexivity).
  split; [auto|]. exact (X6_result_fixed_point _ _ H1 H2 H3).
Defined.

Lemma X7_witness :
  let p := map Z.of_nat (seq 1 20) in
  (valid_prefix (s "secret" ++ s "valoper") = true /\ s "valoper" <> [] /\
   prefix_not_hex (s "secret") = true /\ length p = 20%nat /\ Forall is_byte p) /\
  ConvertAddress (s "secret") (AccAddressString (s "secret" ++ s "valoper") p) =
    (s "0x0000000000000000000000000000000000000000", None).
Proof.
  cbv zeta.
  assert (H1 : valid_prefix (s "secret" ++ s "valoper") = true) by (vm_compute; reflexivity).
  assert (H2 : s "valoper" <> []) by (vm_compute; discriminate).
  assert (H3 : prefix_not_hex (s "secret") = true) by (vm_compute; reflexivity).
  assert (H4 : length (map Z.of_nat (seq 1 20)) = 20%nat) by (vm_compute; reflexivity).
  assert (H5 : Forall is_byte (map Z.of_nat (seq 1 20))) by (vm_compute; repeat constructor).
  split; [auto 6|]. exact (proj2 (X7_extended_prefix_zero _ _ _ H1 H2 H3 H4 H5)).
Defined.

(** The upper-case string is one [AccAddressFromBech32] itself accepts. *)
Lemma X8_witness :
  let p := map Z.of_nat (seq 1 20) in
  let X := ToUpper (AccAddressString (s "secret") p) in
  (existsb isLowerAscii (s "secret") = true /\ prefix_not_hex (ToUpper (s "secret")) = true /\
   length p = 20%nat /\ Forall is_byte p) /\
  AccAddressFromBech32 (s "secret") X = (p, None) /\
  ConvertAddress (s "secret") X = ([], Some (Errorf (s "expected a valid hex or bech32 address"))).
Proof.
  cbv zeta.
  assert (H1 : existsb isLowerAscii (s "secret") = true) by (vm_compute; reflexivity).
  assert (H2 : prefix_not_hex (ToUpper (s "secret")) = true) by (vm_compute; reflexivity).
  assert (H3 : length (map Z.of_nat (seq 1 20)) = 20%nat) by (vm_compute; reflexivity).
  assert (H4 : Forall is_byte (map Z.of_nat (seq 1 20))) by (vm_compute; repeat constructor).
  split; [auto|]. split; [vm_compute; reflexivity|].
  exact (X8_uppercase_bech32_rejected _ _ H1 H2 H3 H4).
Defined.

Lemma X9_witness :
  s "secret" <> [] /\
  ConvertAddress (s "secret") [] = ([], Some (Errorf (s "expected a valid hex or bech32 address"))).
Proof.
  assert (H : s "secret" <> []) by (vm_compute; discriminate).
  split; [exact H|]. exact (X9_empty_input _ H).
Defined.

(* ------------------------------------------------------------------ *)
(** ** Proofs: the address cache *)

Lemma key_eqb_true (a b : list Z) : key_eqb a b = true -> a = b.
Proof. unfold key_eqb. destruct (list_eq_dec Z.eq_dec a b); congruence. Qed.

Lemma key_eqb_refl (a : list Z) : key_eqb a a = true.
Proof. unfold key_eqb. destruct (list_eq_dec Z.eq_dec a a); congruence. Qed.

Section CacheEntries.

Variable P : list Z * gostring -> Prop.

Lemma lru_find_In (k : list Z) (v : gostring) : forall items,
  lru_find k items = Some v -> In (k, v) items.
Proof.
  induction items as [|[k' v'] items IH]; simpl; [discriminate|].
  destruct (key_eqb k' k) eqn:E.
  - intros H. inversion H; subst. apply key_eqb_true in E. subst. auto.
  - intros H. right. apply IH, H.
Qed.

Lemma Forall_lru_remove (k : list Z) (items : list (list Z * gostring)) :
  Forall P items -> Forall P (lru_remove k items).
Proof.
  intros H. apply Forall_forall. intros e He. unfold lru_remove in He.
  apply filter_In in He as [He _]. rewrite Forall_forall in H. apply H, He.
Qed.

Lemma Forall_removelast (l : list (list Z * gostring)) : Forall P l -> Forall P (removelast l).
Proof.
  induction 1 as [|a l Ha Hl IH]; [constructor|]. simpl.
  destruct l; [constructor|]. constructor; assumption.
Qed.

End CacheEntries.

(** [AccAddress.String()] on a well-formed cache: it returns the uncached
    string, keeps the cache well-formed and its flag, and, with caching
    enabled, leaves the address's entry at the front of the cache. *)
Lemma AccAddressString_st_spec (pre : gostring) (aa : list Z) (st : AddrState) :
  cache_wf pre st ->
  fst (AccAddressString_st pre aa st) = AccAddressString pre aa /\
  cache_wf pre (snd (AccAddressString_st pre aa st)) /\
  addr_cache_enabled (snd (AccAddressString_st pre aa st)) = addr_cache_enabled st /\
  (addr_cache_enabled st = true -> aa <> [] ->
   hd_error (lru_items (addr_cache (snd (AccAddressString_st pre aa st)))) =
     Some (aa, AccAddressString pre aa)).
Proof.
  intros [Hsz Hall]. destruct aa as [|b bs] eqn:Ea.
  { simpl. split; [reflexivity|]. split; [split; assumption|]. split; [reflexivity|].
    intros _ H. congruence. }
  rewrite <- Ea.
  assert (Henc : fst (ConvertAndEncode pre aa) = AccAddressString pre aa) by (subst aa; reflexivity).
  destruct st as [en [size items]]. simpl in Hsz, Hall.
  (* [cacheBech32Addr] on a well-formed cache *)
  assert (Hcb : forall items', Forall (fun e => snd e = AccAddressString pre (fst e)) items' ->
            let r := cacheBech32Addr pre aa (mkAddrState en (mkLRU size items')) in
            fst r = AccAddressString pre aa /\ cache_wf pre (snd r) /\
            addr_cache_enabled (snd r) = en /\
            (en = true -> hd_error (lru_items (addr_cache (snd r))) = Some (aa, AccAddressString pre aa))).
  { intros items' Hi. unfold cacheBech32Addr. simpl. rewrite Henc.
    destruct en; cbn [lru_items lru_size addr_cache addr_cache_enabled fst snd].
    2: { split; [reflexivity|]. split; [split; assumption|]. split; [reflexivity|]. discriminate. }
    unfold lru_add. cbn [lru_items lru_size addr_cache addr_cache_enabled fst snd].
    destruct (lru_find aa items') eqn:Ef.
    - simpl. split; [reflexivity|].
      split; [split; [exact Hsz|]; constructor; [reflexivity | apply Forall_lru_remove, Hi]|].
      split; [reflexivity|]. intros _. reflexivity.
    - assert (Hn : Forall (fun e => snd e = AccAddressString pre (fst e))
                          ((aa, AccAddressString pre aa) :: items'))
        by (constructor; [reflexivity | exact Hi]).
      match goal with |- context [if (size <? ?n) then _ else _] => destruct (size <? n) eqn:Es end;
        cbn [lru_items lru_size addr_cache addr_cache_enabled fst snd].
      + split; [reflexivity|]. split; [split; [exact Hsz | apply Forall_removelast, Hn]|].
        split; [reflexivity|]. intros _.
        destruct items' as [|e items'']; [|reflexivity].
        simpl in Es. apply Z.ltb_lt in Es. lia.
      + split; [reflexivity|]. split; [split; [exact Hsz | exact Hn]|].
        split; [reflexivity|]. intros _. reflexivity. }
  cbv zeta in Hcb. unfold AccAddressString_st. rewrite Ea. rewrite <- Ea. simpl addr_cache_enabled.
  destruct en.
  - simpl addr_cache. unfold lru_get. simpl lru_items. destruct (lru_find aa items) as [v|] eqn:Ef.
    + apply lru_find_In in Ef. pose proof (proj1 (Forall_forall _ _) Hall _ Ef) as Hv.
      simpl in Hv. subst v. simpl. split; [reflexivity|].
      split; [split; [exact Hsz|]; constructor; [reflexivity | apply Forall_lru_remove, Hall]|].
      split; [reflexivity|]. intros _ _. reflexivity.
    + destruct (Hcb items Hall) as (H1 & H2 & H3 & H4).
      split; [exact H1|]. split; [exact H2|]. split; [exact H3|]. intros H _. apply H4, H.
  - destruct (Hcb items Hall) as (H1 & H2 & H3 & _).
    split; [exact H1|]. split; [exact H2|]. split; [exact H3|]. discriminate.
Qed.

(** ** The claim on side effects *)

(** C10 (amended): [ConvertAddress] does not depend on the SDK's address
    cache: on any cache that [AccAddress.String()] filled under the same
    prefix it returns the cache-free result, so two calls with the same
    input agree. It is not free of side effects: the bech32 and error
    branches leave the state as it was, but on the hex branch, with
    caching enabled, [AccAddress.String()] writes the result into the
    process-wide cache (or refreshes its entry), which is left well-formed. *)
Theorem C10_cache_independent_not_pure (pre x : gostring) (st : AddrState) :
  cache_wf pre st ->
  fst (ConvertAddress_st pre x st) = ConvertAddress pre x /\
  fst (ConvertAddress_st pre x (snd (ConvertAddress_st pre x st))) = fst (ConvertAddress_st pre x st) /\
  cache_wf pre (snd (ConvertAddress_st pre x st)) /\
  addr_cache_enabled (snd (ConvertAddress_st pre x st)) = addr_cache_enabled st /\
  (IsHexAddress x = false -> snd (ConvertAddress_st pre x st) = st) /\
  (IsHexAddress x = true -> addr_cache_enabled st = true ->
   hd_error (lru_items (addr_cache (snd (ConvertAddress_st pre x st)))) =
     Some (HexToAddress x, fst (fst (ConvertAddress_st pre x st)))).
Proof.
  assert (Hmain : forall st, cache_wf pre st ->
    fst (ConvertAddress_st pre x st) = ConvertAddress pre x /\
    cache_wf pre (snd (ConvertAddress_st pre x st)) /\
    addr_cache_enabled (snd (ConvertAddress_st pre x st)) = addr_cache_enabled st /\
    (IsHexAddress x = false -> snd (ConvertAddress_st pre x st) = st) /\
    (IsHexAddress x = true -> addr_cache_enabled st = true ->
     hd_error (lru_items (addr_cache (snd (ConvertAddress_st pre x st)))) =
       Some (HexToAddress x, fst (fst (ConvertAddress_st pre x st))))).
  { intros st0 Hw. unfold ConvertAddress_st, ConvertAddress.
    destruct (IsHexAddress x) eqn:Ex.
    - destruct (AccAddressString_st_spec pre (HexToAddress x) st0 Hw) as (H1 & H2 & H3 & H4).
      destruct (AccAddressString_st pre (HexToAddress x) st0) as [str st'] eqn:Es.
      simpl in H1, H2, H3, H4 |- *. subst str.
      split; [reflexivity|]. split; [exact H2|]. split; [exact H3|].
      split; [intros H; discriminate H|].
      intros _ Hen. apply H4; [exact Hen|].
      destruct (HexToAddress_props x Ex) as [Hl _]. intros Hn. rewrite Hn in Hl. discriminate Hl.
    - destruct (HasPrefix x pre); [destruct (AccAddressFromBech32 pre x)|]; simpl;
        (split; [reflexivity|]); (split; [exact Hw|]); (split; [reflexivity|]);
        (split; [intros _; reflexivity|]); intros H; discriminate H. }
  intros Hw. destruct (Hmain st Hw) as (H1 & H2 & H3 & H4 & H5).
  destruct (Hmain _ H2) as (H1' & _).
  split; [exact H1|]. split; [rewrite H1', H1; reflexivity|]. auto.
Qed.

Lemma C10_witness :
  let pre := s "secret" in
  let st0 := mkAddrState true (mkLRU 60000 []) in
  let x := s "0x1234567890123456789012345678901234567890" in
  cache_wf pre st0 /\
  fst (ConvertAddress_st pre x st0) = ConvertAddress pre x.
Proof.
  cbv zeta.
  assert (H : cache_wf (s "secret") (mkAddrState true (mkLRU 60000 [])))
    by (split; [simpl; lia | constructor]).
  split; [exact H|]. exact (proj1 (C10_cache_independent_not_pure _ _ _ H)).
Defined.

(** A call on a hex address changes the state: starting from the empty
    cache, [accAddrCache] afterwards holds the converted address. *)
Lemma C10_cache_written :
  let pre := s "secret" in
  let st0 := mkAddrState true (mkLRU 60000 []) in
  let x := s "0x1234567890123456789012345678901234567890" in
  ConvertAddress_st pre x st0 =
    ((s "secret1zg69v7yszg69v7yszg69v7yszg69v7ysh74rag", None),
     mkAddrState true (mkLRU 60000 [(HexToAddress x, s "secret1zg69v7yszg69v7yszg69v7yszg69v7ysh74rag")])) /\
  snd (ConvertAddress_st pre x st0) <> st0.
Proof.
  cbv zeta. split; [vm_compute; reflexivity|].
  intros H. apply (f_equal (fun st => length (lru_items (addr_cache st)))) in H.
  vm_compute in H. discriminate H.
Qed.
